(** * The base module of Apostrophe: route compilation, response wrappers,
      error normalisation and cache control

    A shallow embedding of [modules/@apostrophecms/module/index.js]
    (the base class every module extends) together with the properties
    its specification states about it.

    JavaScript data is modelled by the type [value]; the response object,
    the structured log and the console are modelled by an explicit
    [world] that every effectful function threads; a thrown exception is
    the [Throw] outcome of the [result] type. *)

From stdpp Require Import base gmap list strings pretty.
From Stdlib Require Import ZArith QArith Ascii String.

Open Scope Z_scope.
Open Scope string_scope.
Open Scope list_scope.

(** ** JavaScript values *)

(** Plain data as the module receives it: primitives, arrays and plain
    objects.  Numbers are the integers (status codes, millisecond
    timestamps).  An object is its own enumerable properties in
    enumeration order.  [VNative name] is a built-in function such as
    the members of [Object.prototype], which every plain object
    inherits; it is known by its name and owns no enumerable property. *)
#[warnings="-register-all"]
Inductive value : Type :=
| VUndefined
| VNull
| VBool (b : bool)
| VNum (z : Z)
| VStr (s : string)
| VArr (items : list value)
| VObj (fields : list (string * value))
| VNative (name : string).

(** First binding of a key in a property list. *)
Fixpoint assoc {A : Type} (k : string) (l : list (string * A)) : option A :=
  match l with
  | [] => None
  | (k', v) :: l' => if String.eqb k k' then Some v else assoc k l'
  end.

(** [obj[k] = v]: an existing property keeps its place, a new one is
    added last. *)
Fixpoint assoc_set {A : Type} (k : string) (v : A) (l : list (string * A))
  : list (string * A) :=
  match l with
  | [] => [(k, v)]
  | (k', v') :: l' =>
      if String.eqb k k' then (k, v) :: l' else (k', v') :: assoc_set k v l'
  end.

(** [v.k] for one of the data property names this module reads ([name],
    [message], [data], [path], [errors], [stack], [cause],
    [cacheInvalidatedAt], [piece], [page], [_id]); on a primitive or an
    array these are all [undefined], and of these a built-in function
    has its [name] only. *)
Definition prop (v : value) (k : string) : value :=
  match v with
  | VObj fs => default VUndefined (assoc k fs)
  | VNative name => if String.eqb k "name" then VStr name else VUndefined
  | _ => VUndefined
  end.

(** [v.k = x] on a plain object; on a primitive the assignment is
    dropped (the module is not in strict mode).  An array or a function
    would take the property; the one place that may assign to one,
    the [catch] of [logError], keeps the property aside. *)
Definition set_prop (v : value) (k : string) (x : value) : value :=
  match v with
  | VObj fs => VObj (assoc_set k x fs)
  | _ => v
  end.

Definition nullish (v : value) : bool :=
  match v with
  | VUndefined | VNull => true
  | _ => false
  end.

(** ToBoolean. *)
Definition truthy (v : value) : bool :=
  match v with
  | VUndefined | VNull => false
  | VBool b => b
  | VNum z => negb (Z.eqb z 0)
  | VStr s => negb (String.eqb s "")
  | VArr _ | VObj _ | VNative _ => true
  end.

(** [a || b] *)
Definition js_or (a b : value) : value := if truthy a then a else b.

Definition isArray (v : value) : bool :=
  match v with
  | VArr _ => true
  | _ => false
  end.

Definition items_of (v : value) : list value :=
  match v with
  | VArr l => l
  | _ => []
  end.

(** [v === s] for a string literal [s]. *)
Definition is_str (v : value) (s : string) : bool :=
  match v with
  | VStr s' => String.eqb s' s
  | _ => false
  end.

(** ToString, as used for property keys, template literals and string
    concatenation.  Plain objects print through the inherited
    [Object.prototype.toString], built-in functions through
    [Function.prototype.toString]. *)
Fixpoint to_string (v : value) : string :=
  match v with
  | VUndefined => "undefined"
  | VNull => "null"
  | VBool true => "true"
  | VBool false => "false"
  | VNum z => pretty z
  | VStr s => s
  | VArr l =>
      String.concat ","
        (map (fun x => match x with
                       | VUndefined | VNull => ""
                       | _ => to_string x
                       end) l)
  | VObj _ => "[object Object]"
  | VNative name => "function " +:+ name +:+ "() { [native code] }"
  end.

(** Nesting depth of a value; it bounds the recursion of the error
    normaliser. *)
Fixpoint depth (v : value) : nat :=
  match v with
  | VArr l => S (foldr (fun x n => Nat.max (depth x) n) O l)
  | VObj fs => S (foldr (fun kv n => Nat.max (depth (snd kv)) n) O fs)
  | _ => O
  end.

(** lodash [_.isEmpty]: nullish values, numbers, booleans and functions,
    the empty string, the empty array and the object without own
    properties. *)
Definition isEmpty (v : value) : bool :=
  match v with
  | VUndefined | VNull | VBool _ | VNum _ | VNative _ => true
  | VStr s => String.eqb s ""
  | VArr l => match l with [] => true | _ => false end
  | VObj fs => match fs with [] => true | _ => false end
  end.

(** [Object.prototype[name]], which is what a plain object yields for a
    property it does not own: the members are built-in functions, and
    [__proto__] reads as [Object.prototype] itself, an object without
    enumerable properties. *)
Definition Object_prototype (name : string) : value :=
  if String.eqb name "constructor" then VNative "Object"
  else if existsb (String.eqb name)
            ["hasOwnProperty"; "isPrototypeOf"; "propertyIsEnumerable";
             "toLocaleString"; "toString"; "valueOf";
             "__defineGetter__"; "__defineSetter__";
             "__lookupGetter__"; "__lookupSetter__"]
       then VNative name
       else if String.eqb name "__proto__" then VObj []
            else VUndefined.

(** [v === n] for a number literal [n]. *)
Definition is_num (v : value) (n : Z) : bool :=
  match v with
  | VNum z => Z.eqb z n
  | _ => false
  end.

(** ** Strings *)

(** [s.split(sep)] for a one-character separator. *)
Fixpoint split (sep : ascii) (s : string) : list string :=
  match s with
  | EmptyString => [EmptyString]
  | String c s' =>
      if Ascii.eqb c sep then EmptyString :: split sep s'
      else match split sep s' with
           | [] => [String c EmptyString]
           | h :: t => String c h :: t
           end
  end.

Definition is_space (c : ascii) : bool :=
  let n := Ascii.nat_of_ascii c in
  (Nat.eqb n 32 || (Nat.leb 9 n && Nat.leb n 13))%bool.

Fixpoint ltrim (s : string) : string :=
  match s with
  | EmptyString => EmptyString
  | String c s' => if is_space c then ltrim s' else s
  end.

Fixpoint rtrim (s : string) : string :=
  match s with
  | EmptyString => EmptyString
  | String c s' =>
      let t := rtrim s' in
      if (is_space c && String.eqb t EmptyString)%bool then EmptyString
      else String c t
  end.

(** [s.trim()] over the ASCII white space and line terminators. *)
Definition trim (s : string) : string := rtrim (ltrim s).

Definition is_digit (c : ascii) : bool :=
  let n := Ascii.nat_of_ascii c in (Nat.leb 48 n && Nat.leb n 57)%bool.

Fixpoint digits_value (acc : Z) (s : string) : option Z :=
  match s with
  | EmptyString => Some acc
  | String c s' =>
      if is_digit c
      then digits_value (10 * acc + (Z.of_nat (Ascii.nat_of_ascii c) - 48)) s'
      else None
  end.

(** A non-empty run of decimal digits and the integer it denotes. *)
Definition parse_decimal (s : string) : option Z :=
  match s with
  | EmptyString => None
  | _ => digits_value 0 s
  end.

(** ** Hyphenated names *)

Definition is_upper (c : ascii) : bool :=
  let n := Ascii.nat_of_ascii c in (Nat.leb 65 n && Nat.leb n 90)%bool.

Definition to_lower (c : ascii) : ascii :=
  if is_upper c then Ascii.ascii_of_nat (Ascii.nat_of_ascii c + 32) else c.

Fixpoint hyphenate (start : bool) (s : string) : string :=
  match s with
  | EmptyString => EmptyString
  | String c s' =>
      if is_upper c
      then (if start then "" else "-") +:+ String (to_lower c) (hyphenate false s')
      else String c (hyphenate false s')
  end.

(** Modelled from the spec: [self.apos.util.cssName], which is not part
    of this file, converts a name from identifier case to hyphenated
    case, as in [saveArea] to [save-area]: each upper-case letter is
    lower-cased and, unless it starts the name, preceded by a hyphen. *)
Definition cssName (name : string) : string := hyphenate true name.

(** ** Outcomes and effects *)

(** A call either returns or throws; an asynchronous function either
    resolves or rejects. *)
Inductive result (A : Type) : Type :=
| Ok (a : A)
| Throw (e : value).
Arguments Ok {A} a.
Arguments Throw {A} e.

Definition result_bind {A B : Type} (r : result A) (k : A -> result B)
  : result B :=
  match r with
  | Ok a => k a
  | Throw e => Throw e
  end.

Fixpoint mapM {A B : Type} (f : A -> result B) (l : list A)
  : result (list B) :=
  match l with
  | [] => Ok []
  | x :: l' =>
      result_bind (f x) (fun y =>
      result_bind (mapM f l') (fun ys => Ok (y :: ys)))
  end.

(** The [TypeError] the runtime raises, e.g. on reading a property of
    [undefined] or calling a non-function. *)
Definition TypeError (msg : string) : value :=
  VObj [("name", VStr "TypeError"); ("message", VStr msg)].

(** [v.k] where [v] may be [null] or [undefined]. *)
Definition member (v : value) (k : string) : result value :=
  if nullish v
  then Throw (TypeError ("Cannot read properties of " +:+ to_string v))
  else Ok (prop v k).

(** What the module does to the outside, in order of occurrence. *)
Inductive event : Type :=
| EHeader (k v : string)                        (* res.header(k, v) *)
| EStatus (code : value)                        (* res.status(code) *)
| ESend (body : value)                          (* res.send(body) *)
| ELogError (key : string) (msg fields : value) (* self.logError(req, ...) *)
| EConsoleError (e : value)                     (* console.error(e) *)
| EConsoleErrorWith (e : value) (message : value)
    (* console.error(e) for an array or a function e whose message
       property has been set to message *)
| EUtilError (msg : string).                    (* self.apos.util.error(msg, ...) *)

(** The response object of the request and the trace of effects;
    [res.status] stores whatever it is given in [res.statusCode]. *)
Record world : Type := mkWorld {
  statusCode : value;
  trace : list event
}.

Definition emit (e : event) (w : world) : world :=
  mkWorld (statusCode w) (trace w ++ [e]).

Definition res_header (k v : string) (w : world) : world :=
  emit (EHeader k v) w.

Definition res_status (code : value) (w : world) : world :=
  mkWorld code (trace w ++ [EStatus code]).

Definition res_send (body : value) (w : world) : world :=
  emit (ESend body) w.

(** The bodies sent so far, oldest first. *)
Definition sent (w : world) : list value :=
  omap (fun e => match e with ESend b => Some b | _ => None end) (trace w).

(** The final value of a response header, if it was set. *)
Definition header_value (k : string) (w : world) : option string :=
  last (omap (fun e => match e with
                       | EHeader k' v => if String.eqb k' k then Some v else None
                       | _ => None
                       end) (trace w)).

(** An effectful computation. *)
Definition M (A : Type) : Type := world -> result A * world.

Definition ret {A : Type} (a : A) : M A := fun w => (Ok a, w).

Definition throw {A : Type} (e : value) : M A := fun w => (Throw e, w).

Definition bind {A B : Type} (m : M A) (k : A -> M B) : M B :=
  fun w => match m w with
           | (Ok a, w') => k a w'
           | (Throw e, w') => (Throw e, w')
           end.

(** [try { m } catch (e) { h(e) }] *)
Definition try_catch {A : Type} (m : M A) (h : value -> M A) : M A :=
  fun w => match m w with
           | (Ok a, w') => (Ok a, w')
           | (Throw e, w') => h e w'
           end.

Definition lift {A : Type} (r : result A) : M A := fun w => (r, w).

Definition perform (f : world -> world) : M unit := fun w => (Ok tt, f w).

Notation "'let*' x := m 'in' k" := (bind m (fun x => k))
  (at level 10, x name, m at level 100, k at level 200).
Notation "'do*' m 'in' k" := (bind m (fun _ => k))
  (at level 10, m at level 100, k at level 200).

(** ** Requests *)

Record request : Type := mkRequest {
  req_method : string;                   (* req.method *)
  req_user : value;                      (* req.user *)
  req_params : value;                    (* req.params *)
  req_session : value;                   (* req.session *)
  req_headers : list (string * string);  (* req.headers *)
  req_data : value;                      (* req.data *)
  req_res : bool                         (* whether req.res is there *)
}.

(** ** Routes *)

(** A JavaScript function as this module calls it: on the request and, for
    a REST handler, the document id as second argument.  The response
    object is part of the world; the value an asynchronous function
    resolves with is its result, its rejection a [Throw]. *)
Definition func : Type := request -> value -> M value.

(** What a route declaration holds: a function, an array of middleware
    functions ending in the route function, or nothing. *)
#[warnings="-register-all"]
Inductive routeval : Type :=
| RFun (f : func)
| RArr (l : list routeval)
| RUndef.

(** An entry of a route section: the route itself, or an object with
    extra configuration such as [before]. *)
Inductive config : Type :=
| CRoute (r : routeval)
| CObj (before : value) (r : routeval).

(** A route section: HTTP method to route name to declaration, in
    enumeration order. *)
Definition section : Type := list (string * list (string * config)).

(** [self.restApiRoutes] *)
Record restApi : Type := mkRestApi {
  rest_getAll : routeval;
  rest_getOne : routeval;
  rest_post : routeval;
  rest_put : routeval;
  rest_patch : routeval;
  rest_delete : routeval
}.

(** The function stored in a compiled route: the (possibly wrapped) route
    function, or the closure that runs the captured array of middleware
    and route function one after the other. *)
Inductive handler : Type :=
| HRoute (r : routeval)
| HChain (chain : list routeval).

(** An entry of [self._routes]. *)
Record compiled : Type := mkCompiled {
  c_before : value;
  c_method : string;
  c_url : string;
  c_route : handler
}.

(** The part of a module ([self]) that route compilation reads and
    writes. *)
Record module : Type := mkModule {
  meta_name : string;          (* self.__meta.name *)
  action : string;             (* self.action *)
  routes : section;
  renderRoutes : section;
  apiRoutes : section;
  restApiRoutes : restApi;
  _routes : list compiled
}.

Definition route_truthy (r : routeval) : bool :=
  match r with
  | RUndef => false
  | _ => true
  end.

(** [route(req, arg)] *)
Definition call (r : routeval) (req : request) (arg : value) : M value :=
  match r with
  | RFun f => f req arg
  | _ => throw (TypeError "route is not a function")
  end.

(** [Object.entries(v)] *)
Definition entries (v : value) : result (list (string * value)) :=
  match v with
  | VUndefined | VNull =>
      Throw (TypeError "Cannot convert undefined or null to object")
  | VObj fs => Ok fs
  | VArr l => Ok (imap (fun i x => (pretty i, x)) l)
  | VStr s =>
      Ok (imap (fun i c => (pretty i, VStr (String c EmptyString)))
            (list_ascii_of_string s))
  | _ => Ok []
  end.

(** Number.prototype.toString of a time value. *)
Definition number_to_string (t : option Z) : string :=
  match t with
  | Some z => pretty z
  | None => "NaN"
  end.

(** ** Collaborators

    What the base module reaches through [self.apos], through the
    methods mixed in from [./lib/log], and through the runtime. *)
Record Apos : Type := mkApos {
  (* the own properties of self.apos.http.errors: error name to HTTP
     status *)
  http_errors : gmap string Z;
  (* what an error made by self.apos.error owns besides name and data *)
  error_own : string -> list (string * value);
  (* self.logError of ./lib/log: what it throws on these arguments, if
     it throws *)
  log_failure : string -> value -> value -> option value;
  (* self.apos.util.cssName *)
  util_cssName : string -> string;
  (* self.apos.asset.getReleaseId() *)
  asset_getReleaseId : string;
  (* self.apos.template.renderForModule(req, name, data, self) *)
  template_renderForModule : request -> string -> value -> result value;
  (* Date.now() *)
  Date_now : Z;
  (* new Date(v).getTime(); None is NaN *)
  Date_getTime : value -> option Z;
  (* ToNumber on a string that is not a run of decimal digits; None is NaN *)
  ToNumber_other : string -> option Q;
  (* ToString of an integer of magnitude 1e21 or more, which prints in
     exponent notation *)
  ToString_large : Z -> string
}.

(** The two log functions a response is tagged with. *)
Inductive logfn : Type :=
| util_info
| util_error.

(** What [getResponse] returns. *)
Record response : Type := mkResponse {
  resp_name : value;
  resp_data : value;
  resp_code : value;
  resp_path : value;
  resp_fn : logfn;
  resp_message : value
}.

Definition with_data (r : response) (d : value) : response :=
  mkResponse (resp_name r) d (resp_code r) (resp_path r) (resp_fn r)
    (resp_message r).

(** The object [getResponse] builds for a sub-error; [fn] is left out. *)
Definition sub_entry (r : response) : value :=
  VObj [("name", resp_name r); ("code", resp_code r);
        ("message", resp_message r); ("data", resp_data r);
        ("path", resp_path r)].

(** The object [routeSendError] builds for a member [err] of an array. *)
Definition array_entry (err : value) (r : response) : value :=
  VObj [("name", resp_name r); ("message", resp_message r);
        ("path", prop err "path"); ("code", resp_code r);
        ("data", resp_data r)].

(** The body sent to the browser. *)
Definition error_body (r : response) : value :=
  VObj [("name", resp_name r); ("data", resp_data r);
        ("message", resp_message r)].

(** [(stack || '').split('\n').slice(1).map(line => line.trim())] *)
Definition stack_lines (stack : value) : result value :=
  match js_or stack (VStr "") with
  | VStr s =>
      Ok (VArr (map (fun line => VStr (trim line)) (tail (split "010" s))))
  | _ => Throw (TypeError "split is not a function")
  end.



(** No colon occurs in the string. *)
Definition colon_free (s : string) : Prop :=
  ~ In ":"%char (list_ascii_of_string s).

(** The collaborators as they are when [Date.now()] reads [t]. *)
Definition at_time (apos : Apos) (t : Z) : Apos :=
  mkApos (http_errors apos) (error_own apos) (log_failure apos)
    (util_cssName apos) (asset_getReleaseId apos)
    (template_renderForModule apos) t (Date_getTime apos)
    (ToNumber_other apos) (ToString_large apos).

(** ** Asset URLs *)

(** What [determineBestAssetUrl] asks of the asset module and of the file
    system. *)
Record Site : Type := mkSite {
  asset_hasBuildModule : bool;     (* self.apos.asset.hasBuildModule() *)
  asset_url : string -> string;    (* self.apos.asset.url *)
  fs_existsSync : string -> bool   (* fs.existsSync *)
}.

(** An entry of [self.__meta.chain]. *)
Record chain_entry : Type := mkEntry {
  entry_dirname : string;
  entry_name : string
}.

(** The loop over the reversed chain: the first entry whose
    [public/<name>.<ext>] exists gives the URL and ends the loop. *)
Fixpoint chain_search (site : Site) (name ext : string)
    (chain : list chain_entry) : option string :=
  match chain with
  | [] => None
  | entry :: chain' =>
      let path :=
        entry_dirname entry +:+ "/public/" +:+ name +:+ "." +:+ ext in
      if fs_existsSync site path
      then Some ("/modules/" +:+ entry_name entry +:+ "/" +:+ name
                 +:+ "." +:+ ext)
      else chain_search site name ext chain'
  end.

(** [determineBestAssetUrl(name)], from [self.options] to what it is
    afterwards. *)
Definition determineBestAssetUrl (site : Site) (self : module)
    (chain : list chain_entry) (options : list (string * value))
    (name : string) : result (list (string * value)) :=
  let urlOption := default VUndefined (assoc (name +:+ "Url") options) in
  let imageOption := default VUndefined (assoc (name +:+ "Image") options) in
  let ext := to_string imageOption in
  let urlOption :=
    if truthy urlOption then urlOption
    else
      let urlOption :=
        if (truthy imageOption && negb (asset_hasBuildModule site))%bool
        then match chain_search site name ext (rev chain) with
             | Some u => VStr u
             | None => urlOption
             end
        else urlOption in
      if (truthy imageOption && asset_hasBuildModule site)%bool
      then VStr ("/modules/" +:+ meta_name self +:+ "/" +:+ name
                 +:+ "." +:+ ext)
      else urlOption in
  match
    (if truthy urlOption
     then match urlOption with
          | VStr s =>
              Ok (if String.prefix "/modules" s
                  then VStr (asset_url site s) else urlOption)
          | _ => Throw (TypeError "urlOption.startsWith is not a function")
          end
     else Ok urlOption)
  with
  | Throw e => Throw e
  | Ok urlOption =>
      Ok (if truthy urlOption
          then assoc_set (name +:+ "Url") urlOption options
          else options)
  end.

(** ** Inheritance chains *)

(** The loop of [init] over [self.__meta.chain], from position [i] on:
    [self.apos.asset.chains[meta.name] = self.__meta.chain.slice(0, i + 1)]. *)
Fixpoint chains_from (full : list chain_entry) (i : nat)
    (rest : list chain_entry) (chains : gmap string (list chain_entry))
  : gmap string (list chain_entry) :=
  match rest with
  | [] => chains
  | meta :: rest' =>
      chains_from full (S i) rest'
        (<[entry_name meta := take (S i) full]> chains)
  end.

(** What [init] leaves in [self.apos.asset.chains] when
    [self.apos.asset] is there; the table is [None] before the first
    module has filed its chain. *)
Definition init_chains (chain : list chain_entry)
    (chains : option (gmap string (list chain_entry)))
  : gmap string (list chain_entry) :=
  chains_from chain 0 chain (default ∅ chains).

(** ** Sample data *)

(** A taxonomy with three names, a logger that does not throw, a clock
    that reads 10000 ms and assets released as [r1]. *)
Definition sample_apos : Apos :=
  mkApos
    (<["invalid" := 400]> (<["required" := 400]> (<["notfound" := 404]> ∅)))
    (fun name => [("message", VStr name)])
    (fun _ _ _ => None)
    cssName
    "r1"
    (fun _ _ _ => Ok (VStr "<p>page</p>"))
    10000
    (fun v => match v with VNum z => Some z | _ => None end)
    (fun _ => None)
    (fun _ => "1e+21").

(** The same, with a logger that always throws. *)
Definition failing_log_apos : Apos :=
  mkApos (http_errors sample_apos) (error_own sample_apos)
    (fun _ _ _ => Some (VObj [("message", VStr "disk full")]))
    cssName "r1" (template_renderForModule sample_apos) 10000
    (Date_getTime sample_apos) (ToNumber_other sample_apos)
    (ToString_large sample_apos).

(** The same, with a logger that throws [undefined]. *)
Definition undefined_log_apos : Apos :=
  mkApos (http_errors sample_apos) (error_own sample_apos)
    (fun _ _ _ => Some VUndefined)
    cssName "r1" (template_renderForModule sample_apos) 10000
    (Date_getTime sample_apos) (ToNumber_other sample_apos)
    (ToString_large sample_apos).

(** A logged-in GET request. *)
Definition sample_req : request :=
  mkRequest "GET" (VObj [("_id", VStr "u1")]) (VObj [("_id", VStr "d1")])
    (VObj [("cookie", VObj [])]) [] (VObj []) true.

(** An anonymous GET request for a page invalidated at 100 ms, from a
    client that holds the ETag [r1:100:5000]. *)
Definition anon_req : request :=
  mkRequest "GET" VUndefined (VObj [])
    (VObj [("cookie", VObj [("maxAge", VNum 86400)])])
    [("if-none-match", "r1:100:5000")]
    (VObj [("page", VObj [("cacheInvalidatedAt", VNum 100)])]) true.

Definition world0 : world := mkWorld (VNum 200) [].

(** An error the taxonomy does not know. *)
Definition boom : value :=
  VObj [("name", VStr "boom"); ("message", VStr "secret");
        ("stack", VStr ("boom: secret" +:+ String "010" "    at f (x.js:1:1)"))].

(** An error named after a member of [Object.prototype]. *)
Definition inherited_name_err : value :=
  VObj [("name", VStr "constructor"); ("message", VStr "secret")].

(** A validation error the taxonomy maps to 400. *)
Definition required_err : value :=
  VObj [("name", VStr "required"); ("message", VStr "title is required");
        ("path", VStr "title")].

(** An [invalid] error that carries an unknown error as sub-error. *)
Definition nested_invalid : value :=
  VObj [("name", VStr "invalid"); ("message", VStr "bad");
        ("data", VObj [("errors", VArr [boom])])].

(** A handler that resolves with its second argument. *)
Definition echo_id : func := fun _ id => ret id.

(** A handler that resolves with a list. *)
Definition list_docs : func := fun _ _ => ret (VArr [VStr "doc"]).

(** A module named [test] with one route in each section and the
    [getOne] shorthand. *)
Definition sample_module : module :=
  mkModule "test" "/api/v1/test"
    [("get", [("health", CRoute (RFun list_docs))])]
    [("get", [("page", CRoute (RFun list_docs))])]
    [("get", [("search", CRoute (RFun list_docs))])]
    (mkRestApi RUndef (RFun echo_id) RUndef RUndef RUndef RUndef)
    [].

(** A handler that rejects with the unknown error. *)
Definition fail_boom : func := fun _ _ => throw boom.

(** An error whose stack is a number. *)
Definition odd_stack : value :=
  VObj [("name", VStr "boom"); ("message", VStr "secret");
        ("stack", VNum 42)].

(** An anonymous first visit: the request of [anon_req] without
    [If-None-Match]. *)
Definition first_req : request :=
  mkRequest "GET" VUndefined (VObj [])
    (VObj [("cookie", VObj [("maxAge", VNum 86400)])])
    []
    (VObj [("page", VObj [("cacheInvalidatedAt", VNum 100)])]) true.

(** The same from a client that holds an ETag without a time. *)
Definition two_part_req : request :=
  mkRequest "GET" VUndefined (VObj [])
    (VObj [("cookie", VObj [("maxAge", VNum 86400)])])
    [("if-none-match", "r1:100")]
    (VObj [("page", VObj [("cacheInvalidatedAt", VNum 100)])]) true.

(** An anonymous request that has no session. *)
Definition no_session_req : request :=
  mkRequest "GET" VUndefined (VObj []) VUndefined [] (VObj []) true.

(** A site on the legacy asset pipeline, where the module [test] and its
    project-level override both ship [placeholder.jpg]. *)
Definition sample_site : Site :=
  mkSite false
    (fun path => "/apos-frontend/releases/r1/default" +:+ path)
    (fun path =>
       (String.eqb path "/app/node_modules/test/public/placeholder.jpg"
        || String.eqb path "/app/modules/test/public/placeholder.jpg")%bool).

Definition core_entry : chain_entry :=
  mkEntry "/app/node_modules/test" "test".

Definition project_entry : chain_entry :=
  mkEntry "/app/modules/test" "my-test".

Section Module.

Context (apos : Apos).

(** *** Error normalisation *)

Definition no_req_message : string :=
  "Looks like you did not pass req to self.routeSendError, you should not have to call this method yourself,"
  +:+ String "010"
        "it is usually called for you by self.apiRoute, self.htmlRoute or self.renderRoute".

(** Modelled from the spec: [self.apos.error(name, data)] of the error
    module, which is not part of this file, builds an error object named
    [name] that carries [data]. *)
Definition apos_error (name : string) (data : value) : value :=
  VObj (("name", VStr name) :: ("data", data) :: error_own apos name).

(** [self.apos.http.errors[name]]: the taxonomy is a plain object, so a
    name it does not own is looked up in [Object.prototype]. *)
Definition http_errors_at (name : string) : value :=
  match http_errors apos !! name with
  | Some c => VNum c
  | None => Object_prototype name
  end.

(** [err && err.name && self.apos.http.errors[err.name]], giving what the
    taxonomy holds under the name when the test passes. *)
Definition known_code (err : value) : option value :=
  if (truthy err && truthy (prop err "name"))%bool then
    let code := http_errors_at (to_string (prop err "name")) in
    if truthy code then Some code else None
  else None.

(** The body of [getResponse], with its recursive call as a parameter. *)
Definition getResponse_body (getResponse : value -> result response)
    (err : value) : result response :=
  result_bind
    (match known_code err with
     | Some code =>
         Ok (mkResponse (prop err "name")
               (js_or (prop err "data") (VObj []))
               code (prop err "path") util_info (prop err "message"))
     | None =>
         result_bind (member err "path") (fun path =>
         Ok (mkResponse (VStr "error") (VObj []) (VNum 500) path util_error
               (VStr "An error occurred.")))
     end)
    (fun r =>
       if (is_str (resp_name r) "invalid"
           && isArray (prop (resp_data r) "errors"))%bool
       then
         (* Sub-errors must get the same cleansing treatment *)
         result_bind
           (mapM (fun error =>
                    result_bind (getResponse error) (fun response =>
                    Ok (sub_entry response)))
                 (items_of (prop (resp_data r) "errors")))
           (fun errors =>
              Ok (with_data r (set_prop (resp_data r) "errors" (VArr errors))))
       else Ok r).

Fixpoint getResponse_fuel (n : nat) (err : value) : result response :=
  match n with
  | O => Throw (VStr "recursion budget exhausted")
  | S n' => getResponse_body (getResponse_fuel n') err
  end.

(** The recursion descends into the value, so its depth is budget
    enough ([getResponse_unfold] below). *)
Definition getResponse (err : value) : result response :=
  getResponse_fuel (S (depth err)) err.

(** [self.logError(req, key, msg, fields)] *)
Definition self_logError (key : string) (msg fields : value) : M unit :=
  fun w =>
    let w' := emit (ELogError key msg fields) w in
    match log_failure apos key msg fields with
    | Some e => (Throw e, w')
    | None => (Ok tt, w')
    end.

(** What [console.error(e)] is called with once
    [e.message = 'Structured logging error: ' + e.message] has run: an
    object takes the new message, on a primitive the assignment is
    dropped, and an array or a function takes it beside its value. *)
Definition console_event (e : value) : event :=
  let message :=
    VStr ("Structured logging error: " +:+ to_string (prop e "message")) in
  match e with
  | VArr _ | VNative _ => EConsoleErrorWith e message
  | _ => EConsoleError (set_prop e "message" message)
  end.

(** The [catch] block of [logError]; reading [e.message] throws when
    [e] is [null] or [undefined]. *)
Definition logError_catch (e : value) : M unit :=
  do* lift (member e "message") in
  perform (emit (console_event e)).

(** The local function [logError] of [routeSendError]; its parameter
    [error] and the enclosing [err] are the same object. *)
Definition logError (response : response) (error : value) : M unit :=
  let typeTrail :=
    if is_num (resp_code response) 500 then ""
    else "-" +:+ to_string (resp_name response) in
  let msg :=
    if is_num (resp_code response) 500 then prop error "message"
    else resp_message response in
  try_catch
    (let* stack := lift (stack_lines (prop error "stack")) in
     self_logError ("api-error" +:+ typeTrail) msg
       (VObj [("name", resp_name response);
              ("status", resp_code response);
              ("stack", stack);
              ("cause", prop error "cause");
              ("errorPath", resp_path response);
              ("data", resp_data response)]))
    (* We can't afford to throw here, it would hang the response. *)
    logError_catch.

Definition routeSendError (req : option request) (err : value) : M unit :=
  match req with
  | Some rq =>
      if req_res rq then
        let* err :=
          (if isArray err then
             let* errors :=
               lift (mapM (fun err =>
                             result_bind (getResponse err) (fun response =>
                             Ok (array_entry err response)))
                          (items_of err)) in
             ret (apos_error "invalid" (VObj [("errors", VArr errors)]))
           else ret err) in
        let* response := lift (getResponse err) in
        do* logError response err in
        do* perform (res_status (resp_code response)) in
        perform (res_send (error_body response))
      else perform (emit (EUtilError no_req_message))
  | None => perform (emit (EUtilError no_req_message))
  end.

(** *** Route compilation *)

(** [self.action = `/api/v1/${self.__meta.name}`] *)
Definition enableAction (self : module) : module :=
  mkModule (meta_name self) ("/api/v1/" +:+ meta_name self) (routes self)
    (renderRoutes self) (apiRoutes self) (restApiRoutes self) (_routes self).

(** [name.match(/[:/*]/)] *)
Fixpoint has_url_char (name : string) : bool :=
  match name with
  | EmptyString => false
  | String c name' =>
      (Ascii.eqb c ":" || Ascii.eqb c "/" || Ascii.eqb c "*"
       || has_url_char name')%bool
  end.

Definition getRouteUrl (self : module) (name : string) : string :=
  if String.eqb (substring 0 1 name) "/" then
    (* Specifying our own site-relative URL *)
    name
  else if has_url_char name then
    action self +:+ "/" +:+ name
  else
    action self +:+ "/" +:+ util_cssName apos name.

(** [self.render(req, name, data)] *)
Definition render (req : request) (name : string) (data : value) : M value :=
  if req_res req then
    lift (template_renderForModule apos req name
            (if truthy data then data else VObj []))
  else
    throw (VObj [("name", VStr "Error");
                 ("message",
                  VStr "The first argument to self.render must be req.")]).

(** [routeWrappers.apiRoutes(name, fn)]; [VUndefined] stands for the
    value the wrapper resolves with, which nothing reads. *)
Definition routeWrappers_apiRoutes (name : string) (fn : routeval) : func :=
  fun req _ =>
    try_catch
      (let* result := call fn req VUndefined in
       do* (if (String.eqb (req_method req) "GET"
                && truthy (req_user req))%bool
            then perform (res_header "Cache-Control" "no-store")
            else ret tt) in
       do* perform (res_status (VNum 200)) in
       do* perform (res_send result) in
       ret VUndefined)
      (fun err =>
         do* routeSendError (Some req) err in
         ret VUndefined).

(** [routeWrappers.renderRoutes(name, fn)] *)
Definition routeWrappers_renderRoutes (name : string) (fn : routeval) : func :=
  fun req _ =>
    try_catch
      (let* result := call fn req VUndefined in
       let* markup := render req name result in
       do* perform (res_send markup) in
       ret VUndefined)
      (fun err =>
         do* routeSendError (Some req) err in
         ret VUndefined).

(** [self.routeWrappers[section]] *)
Definition routeWrappers (section : string)
  : option (string -> routeval -> func) :=
  if String.eqb section "apiRoutes" then Some routeWrappers_apiRoutes
  else if String.eqb section "renderRoutes"
       then Some routeWrappers_renderRoutes
       else None.

(** [self[section] || {}] for a route section. *)
Definition section_of (self : module) (name : string) : section :=
  if String.eqb name "routes" then routes self
  else if String.eqb name "renderRoutes" then renderRoutes self
  else if String.eqb name "apiRoutes" then apiRoutes self
  else [].

(** One turn of the inner loop of [compileSectionRoutes]: the entry pushed
    for the declaration [config] found under [method] and [name], which
    is a function, an array or an object with extra configuration.  The
    wrapped route function replaces the last slot of a declared array
    ([route[route.length - 1] = routeFn]; nothing is replaced in an empty
    one), and the pushed closure runs that array. *)
Definition compileRoute (self : module) (section method name : string)
    (config : config) : compiled :=
  let route := match config with CObj _ r => r | CRoute r => r end in
  let before := match config with CObj b _ => b | CRoute _ => VUndefined end in
  let url := getRouteUrl self name in
  match route with
  | RArr l =>
      let routeFn := default RUndef (last l) in
      let l :=
        match routeWrappers section with
        | Some wrapper =>
            <[Nat.pred (List.length l) := RFun (wrapper name routeFn)]> l
        | None => l
        end in
      mkCompiled before method url (HChain l)
  | _ =>
      let route :=
        match routeWrappers section with
        | Some wrapper => RFun (wrapper name route)
        | None => route
        end in
      mkCompiled before method url (HRoute route)
  end.

(** The entries [compileSectionRoutes(section)] pushes, in order. *)
Definition sectionRoutes (self : module) (section : string) : list compiled :=
  flat_map (fun mr : string * list (string * config) =>
              map (fun nc : string * config =>
                     compileRoute self section (fst mr) (fst nc) (snd nc))
                  (snd mr))
           (section_of self section).

Definition compileSectionRoutes (section : string) (self : module) : module :=
  mkModule (meta_name self) (action self) (routes self) (renderRoutes self)
    (apiRoutes self) (restApiRoutes self)
    (_routes self ++ sectionRoutes self section).

(** The function [wrapId] returns for a route that is not an array:
    [async req => route(req, req.params._id)]. *)
Definition wrapFn (route : routeval) : routeval :=
  RFun (fun req _ =>
          let* id := lift (member (req_params req) "_id") in
          call route req id).

(** The local function [wrapId] of [compileRestApiRoutesToApiRoutes].
    The inner loop is [route.slice(0, route.length - 1)] followed by the
    wrapped last slot, which is [undefined] in an empty array
    ([wrapId_array] below). *)
Fixpoint wrapId (route : routeval) : routeval :=
  match route with
  | RArr l =>
      (* Allow middleware, last fn is route *)
      RArr ((fix wrap_last (l : list routeval) : list routeval :=
               match l with
               | [] => [wrapFn RUndef]
               | [last] => [wrapId last]
               | x :: l' => x :: wrap_last l'
               end) l)
  | _ => wrapFn route
  end.

(** [self.apiRoutes[method] = self.apiRoutes[method] || {};
     self.apiRoutes[method][name] = route] *)
Definition setApiRoute (method name : string) (r : routeval) (self : module)
  : module :=
  let api := apiRoutes self in
  mkModule (meta_name self) (action self) (routes self) (renderRoutes self)
    (assoc_set method
       (assoc_set name (CRoute r) (default [] (assoc method api))) api)
    (restApiRoutes self) (_routes self).

Definition when (b : bool) (f : module -> module) (self : module) : module :=
  if b then f self else self.

Definition compileRestApiRoutesToApiRoutes (self : module) : module :=
  let rest := restApiRoutes self in
  let self := when (route_truthy (rest_getAll rest))
                (setApiRoute "get" "" (rest_getAll rest)) self in
  let self := when (route_truthy (rest_getOne rest))
                (setApiRoute "get" ":_id" (wrapId (rest_getOne rest))) self in
  let self := when (route_truthy (rest_delete rest))
                (setApiRoute "delete" ":_id" (wrapId (rest_delete rest))) self in
  let self := when (route_truthy (rest_patch rest))
                (setApiRoute "patch" ":_id" (wrapId (rest_patch rest))) self in
  let self := when (route_truthy (rest_put rest))
                (setApiRoute "put" ":_id" (wrapId (rest_put rest))) self in
  when (route_truthy (rest_post rest))
    (setApiRoute "post" "" (rest_post rest)) self.

(** The handler of [@apostrophecms/express:compileRoutes]. *)
Definition compileAllRoutes (self : module) : module :=
  let self := compileRestApiRoutesToApiRoutes self in
  let self := compileSectionRoutes "routes" self in
  let self := compileSectionRoutes "renderRoutes" self in
  (* Put the api routes last so the REST api routes they contain, with
     their wildcards, don't block ordinary apiRoute names *)
  compileSectionRoutes "apiRoutes" self.

(** *** Cache control *)

(** ToNumber of an array slot holding a string or nothing; [None] is
    NaN. *)
Definition to_number (s : option string) : option Q :=
  match s with
  | None => None
  | Some s =>
      match parse_decimal s with
      | Some n => Some (inject_Z n)
      | None => ToNumber_other apos s
      end
  end.

(** ToNumber of a value; an array goes through its string, and neither
    a plain object nor a function prints as a numeral. *)
Definition ToNumber (v : value) : option Q :=
  match v with
  | VUndefined => None
  | VNull => Some 0%Q
  | VBool b => Some (if b then 1%Q else 0%Q)
  | VNum z => Some (inject_Z z)
  | VStr s => to_number (Some s)
  | VArr _ => to_number (Some (to_string v))
  | VObj _ | VNative _ => None
  end.

(** [v >= n], false on NaN. *)
Definition at_least (v : value) (n : Z) : bool :=
  match ToNumber v with
  | Some q => Qle_bool (inject_Z n) q
  | None => false
  end.

(** [req.res], which must be there for its properties to be reached. *)
Definition the_res (req : request) : M unit :=
  if req_res req then ret tt
  else throw (TypeError "Cannot read properties of undefined").

Definition session_entry_ok (entry : string * value) : bool :=
  (String.eqb (fst entry) "cookie"
   || ((String.eqb (fst entry) "flash" || String.eqb (fst entry) "passport")
       && isEmpty (snd entry)))%bool.

Definition isSafeToCache (req : request) : M bool :=
  if truthy (req_user req) then ret false
  else
    do* the_res req in
    fun w =>
      if at_least (statusCode w) 400 then
        (* Don't cache errors *)
        (Ok false, w)
      else
        (result_bind (entries (req_session req)) (fun es =>
         Ok (forallb session_entry_ok es)), w).

Definition generateETagParts (req : request) (doc : value)
  : result (option (list string)) :=
  result_bind
    (if truthy doc then Ok doc
     else
       result_bind (member (req_data req) "piece") (fun piece =>
       if truthy piece then Ok piece else member (req_data req) "page"))
    (fun context =>
       if (negb (truthy context)
           || negb (truthy (prop context "cacheInvalidatedAt")))%bool
       then Ok None
       else
         let releaseId := asset_getReleaseId apos in
         let cacheInvalidatedAtTimestamp :=
           number_to_string
             (Date_getTime apos (prop context "cacheInvalidatedAt")) in
         Ok (Some [releaseId; cacheInvalidatedAtTimestamp])).

(** [req.res.header('ETag', eTagParts.join(':'))] *)
Definition setETag (req : request) (eTagParts : list string) : M unit :=
  do* the_res req in
  perform (res_header "ETag" (String.concat ":" eTagParts)).

(** [(now - clientSetAt) / 1000] *)
Definition etag_age (now : Z) (clientSetAt : option Q) : option Q :=
  match clientSetAt with
  | Some c => Some ((inject_Z now - c) / inject_Z 1000)%Q
  | None => None
  end.

(** [age > maxAge], false on NaN. *)
Definition age_exceeds (age : option Q) (maxAge : Z) : bool :=
  match age with
  | Some a => negb (Qle_bool a (inject_Z maxAge))
  | None => false
  end.

(** [a === b] where [b] is a string. *)
Definition same_string (a : option string) (b : option string) : bool :=
  match a, b with
  | Some x, Some y => String.eqb x y
  | _, _ => false
  end.

Definition checkETag (req : request) (doc : value) (maxAge : Z) : M bool :=
  let* eTagParts := lift (generateETagParts req doc) in
  match eTagParts with
  | None => ret false
  | Some eTagParts =>
      let* safe := isSafeToCache req in
      if negb safe then ret false
      else
        let clientETagParts :=
          match assoc "if-none-match" (req_headers req) with
          | Some h => if String.eqb h "" then [] else split ":" h
          | None => []
          end in
        let doesETagMatch :=
          (same_string (clientETagParts !! 0%nat) (eTagParts !! 0%nat)
           && same_string (clientETagParts !! 1%nat) (eTagParts !! 1%nat))%bool in
        let now := Date_now apos in
        let clientETagAge :=
          etag_age now (to_number (clientETagParts !! 2%nat)) in
        if (negb doesETagMatch || age_exceeds clientETagAge maxAge)%bool then
          do* setETag req (eTagParts ++ [pretty now]) in
          ret false
        else
          do* setETag req clientETagParts in
          ret true
  end.

(** *** Well-formed errors *)

(** An error is well formed when it is neither [null] nor [undefined]
    and every member of its [data.errors], if that is an array, is well
    formed. *)
Inductive well_formed : value -> Prop :=
| well_formed_intro err :
    nullish err = false ->
    (forall x, In x (items_of (prop (prop err "data") "errors")) ->
               well_formed x) ->
    well_formed err.

(** What [getResponse] holds before it turns to the sub-errors. *)
Definition first_response (err : value) : response :=
  match known_code err with
  | Some code =>
      mkResponse (prop err "name") (js_or (prop err "data") (VObj []))
        code (prop err "path") util_info (prop err "message")
  | None =>
      mkResponse (VStr "error") (VObj []) (VNum 500) (prop err "path")
        util_error (VStr "An error occurred.")
  end.

(** The test that guards the treatment of sub-errors. *)
Definition has_sub_errors (r : response) : bool :=
  (is_str (resp_name r) "invalid" && isArray (prop (resp_data r) "errors"))%bool.

(** An object reads as a response when the four properties
    [getResponse] looks at are those of the response. *)
Definition reads_as (e : value) (r : response) : Prop :=
  (exists fs, e = VObj fs)
  /\ prop e "name" = resp_name r
  /\ prop e "data" = resp_data r
  /\ prop e "message" = resp_message r
  /\ prop e "path" = resp_path r.

(** *** Reading route tables *)

(** [self.apiRoutes[method][name]], if it is there. *)
Definition apiRoute (self : module) (method name : string) : option config :=
  match assoc method (apiRoutes self) with
  | Some table => assoc name table
  | None => None
  end.

(** The name begins with a slash. *)
Definition starts_with_slash (name : string) : Prop :=
  exists rest, name = String "/" rest.

(** The name holds a colon, a slash or a star. *)
Definition holds_url_char (name : string) : Prop :=
  exists c, In c (list_ascii_of_string name)
            /\ (c = ":" \/ c = "/" \/ c = "*")%char.

(** *** Reading the cache rules *)

(** The document [generateETagParts] works on: [doc], or else
    [req.data.piece], or else [req.data.page]. *)
Definition etag_context (req : request) (doc : value) : value :=
  if truthy doc then doc
  else if truthy (prop (req_data req) "piece")
       then prop (req_data req) "piece"
       else prop (req_data req) "page".

(** The hit rule in the words of the specification: the release id and
    the timestamp match and [now - clientSetAt] is at most [maxAge]. *)
Definition hit_as_specified (matches : bool) (now clientSetAt maxAge : Z)
  : bool :=
  (matches && Z.leb (now - clientSetAt) maxAge)%bool.

(** *** Reading the trace *)

(** What the [catch] of [logError] writes. *)
Definition is_console_event (e : event) : Prop :=
  match e with
  | EConsoleError _ | EConsoleErrorWith _ _ => True
  | _ => False
  end.

(** The logger never throws [null] or [undefined]. *)
Definition logger_safe : Prop :=
  forall key msg fields e,
    log_failure apos key msg fields = Some e -> nullish e = false.

(** The events [logError] produces: the structured log call and the
    console fallback. *)
Definition is_log_event (e : event) : Prop :=
  match e with
  | ELogError _ _ _ | EConsoleError _ | EConsoleErrorWith _ _ => True
  | _ => False
  end.

Definition sent_of (evs : list event) : list value :=
  omap (fun e => match e with ESend b => Some b | _ => None end) evs.

(** *** Normalised entries *)

(** An entry as [getResponse] leaves it: exactly [name], [code],
    [message], [data] and [path]; either a name under which the
    taxonomy holds something truthy, with what it holds as the code, the
    members of [data.errors] of an [invalid] one being normalised in turn,
    or the generic error. *)
#[warnings="-register-all"]
Inductive normalised : value -> Prop :=
| normalised_known n code m d p :
    truthy n = true ->
    http_errors_at (to_string n) = code ->
    truthy code = true ->
    (is_str n "invalid" = true ->
     Forall normalised (items_of (prop d "errors"))) ->
    normalised (VObj [("name", n); ("code", code); ("message", m);
                    ("data", d); ("path", p)])
| normalised_unknown p :
    normalised (VObj [("name", VStr "error"); ("code", VNum 500);
                    ("message", VStr "An error occurred.");
                    ("data", VObj []); ("path", p)]).

(** *** Cache lifetime *)




(** ** Properties *)

(** *** Values and property lists *)

Lemma assoc_set_same {A : Type} (k : string) (v : A) l :
  assoc k (assoc_set k v l) = Some v.
Proof.
  induction l as [|[k' v'] l IH]; simpl.
  - by rewrite String.eqb_refl.
  - destruct (String.eqb k k') eqn:E; simpl; rewrite ?String.eqb_refl, ?E; done.
Qed.

Lemma assoc_set_other {A : Type} (k k' : string) (v : A) l :
  k <> k' -> assoc k' (assoc_set k v l) = assoc k' l.
Proof.
  intros Hne. induction l as [|[k0 v0] l IH]; simpl.
  - destruct (String.eqb k' k) eqn:E; [|done].
    apply String.eqb_eq in E. congruence.
  - destruct (String.eqb k k0) eqn:E; simpl.
    + apply String.eqb_eq in E. subst k0.
      destruct (String.eqb k' k) eqn:E'; [|done].
      apply String.eqb_eq in E'. congruence.
    + by rewrite IH.
Qed.

Lemma assoc_set_twice {A : Type} (k : string) (v v' : A) l :
  assoc_set k v' (assoc_set k v l) = assoc_set k v' l.
Proof.
  induction l as [|[k0 v0] l IH]; simpl.
  - by rewrite String.eqb_refl.
  - destruct (String.eqb k k0) eqn:E; simpl; rewrite ?String.eqb_refl, ?E;
      [done | by rewrite IH].
Qed.

Lemma depth_assoc (k : string) fs x :
  assoc k fs = Some x -> (depth x < depth (VObj fs))%nat.
Proof.
  simpl. induction fs as [|[k' v'] fs IH]; simpl; [done|].
  destruct (String.eqb k k').
  - intros [= ->]. lia.
  - intros H. specialize (IH H). lia.
Qed.

Lemma depth_item x l : In x l -> (depth x < depth (VArr l))%nat.
Proof.
  simpl. induction l as [|y l IH]; simpl; [done|].
  intros [-> | H]; [lia | specialize (IH H); lia].
Qed.

Lemma depth_prop v (k : string) : (depth (prop v k) <= depth v)%nat.
Proof.
  destruct v as [| | | | | |fs|n]; simpl; try lia.
  - destruct (assoc k fs) as [x|] eqn:E; simpl; [|lia].
    apply depth_assoc in E. simpl in E. lia.
  - destruct (String.eqb k "name"); simpl; lia.
Qed.

Lemma depth_prop_items d (k : string) x :
  In x (items_of (prop d k)) -> (S (depth x) < depth d)%nat.
Proof.
  destruct d as [| | | | | |fs|n]; simpl; try done.
  - destruct (assoc k fs) as [y|] eqn:E; simpl; [|done].
    intros Hin. destruct y; simpl in Hin; try done.
    apply depth_item in Hin. apply depth_assoc in E. simpl in *. lia.
  - by destruct (String.eqb k "name").
Qed.

Lemma mapM_ext {A B : Type} (f g : A -> result B) l :
  (forall x, In x l -> f x = g x) -> mapM f l = mapM g l.
Proof.
  induction l as [|x l IH]; simpl; [done|]. intros H.
  rewrite (H x) by auto. rewrite IH by auto. done.
Qed.

Lemma mapM_length {A B : Type} (f : A -> result B) l ys :
  mapM f l = Ok ys -> List.length ys = List.length l.
Proof.
  revert ys. induction l as [|x l IH]; simpl; intros ys.
  - by intros [= <-].
  - destruct (f x); simpl; [|done].
    destruct (mapM f l); simpl; [|done].
    intros [= <-]. simpl. f_equal. by apply IH.
Qed.

Lemma mapM_lookup {A B : Type} (f : A -> result B) l ys (i : nat) x :
  mapM f l = Ok ys -> l !! i = Some x ->
  exists y, f x = Ok y /\ ys !! i = Some y.
Proof.
  revert ys i. induction l as [|x0 l IH]; simpl; intros ys i; [done|].
  destruct (f x0) as [y0|] eqn:E0; simpl; [|done].
  destruct (mapM f l) as [ys0|] eqn:El; simpl; [|done].
  intros [= <-]. destruct i as [|i]; simpl.
  - intros [= <-]. eauto.
  - intros Hi. by apply (IH ys0 i).
Qed.

Lemma mapM_total {A B : Type} (f : A -> result B) l :
  (forall x, In x l -> exists y, f x = Ok y) -> exists ys, mapM f l = Ok ys.
Proof.
  induction l as [|x l IH]; simpl; intros H; [eauto|].
  destruct (H x) as [y Hy]; [auto|]. rewrite Hy. simpl.
  destruct IH as [ys Hys]; [auto|]. rewrite Hys. simpl. eauto.
Qed.

(** *** The recursion of [getResponse] *)

Lemma getResponse_body_ext (f g : value -> result response) err :
  (forall x, (depth x < depth err)%nat -> f x = g x) ->
  getResponse_body f err = getResponse_body g err.
Proof.
  intros Hfg. unfold getResponse_body.
  assert (Hdata : forall r,
    match known_code err with
    | Some code =>
        Ok (mkResponse (prop err "name") (js_or (prop err "data") (VObj []))
              code (prop err "path") util_info (prop err "message"))
    | None =>
        result_bind (member err "path") (fun path =>
        Ok (mkResponse (VStr "error") (VObj []) (VNum 500) path util_error
              (VStr "An error occurred.")))
    end = Ok r ->
    forall x, In x (items_of (prop (resp_data r) "errors")) ->
              (depth x < depth err)%nat).
  { intros r Hr x Hx. destruct (known_code err).
    - injection Hr as <-. simpl in Hx. unfold js_or in Hx.
      destruct (truthy (prop err "data")); [|done].
      apply depth_prop_items in Hx.
      pose proof (depth_prop err "data"). lia.
    - destruct (member err "path"); simpl in Hr; [|done].
      injection Hr as <-. done. }
  destruct (match known_code err with Some _ => _ | None => _ end) as [r|e];
    simpl; [|done].
  destruct (is_str (resp_name r) "invalid"
            && isArray (prop (resp_data r) "errors"))%bool; [|done].
  erewrite mapM_ext; [done|]. intros x Hx. simpl.
  rewrite Hfg; [done|]. by eapply Hdata.
Qed.

Lemma getResponse_fuel_irrelevant (n m : nat) err :
  (depth err < n)%nat -> (depth err < m)%nat ->
  getResponse_fuel n err = getResponse_fuel m err.
Proof.
  revert m err. induction n as [|n IH]; intros m err Hn Hm; [lia|].
  destruct m as [|m]; [lia|]. simpl.
  apply getResponse_body_ext. intros x Hx. apply IH; lia.
Qed.

(** [getResponse] satisfies the recursive equation of the source: the
    budget it starts from is never exhausted. *)
Lemma getResponse_unfold err :
  getResponse err = getResponse_body getResponse err.
Proof.
  unfold getResponse at 1. simpl.
  apply getResponse_body_ext. intros x Hx.
  unfold getResponse. apply getResponse_fuel_irrelevant; lia.
Qed.

(** *** Sending an error *)

Lemma sent_app c t evs :
  sent (mkWorld c (t ++ evs)) = sent (mkWorld c t) ++ sent_of evs.
Proof. unfold sent, sent_of. simpl. apply omap_app. Qed.

Lemma sent_of_log_events evs : Forall is_log_event evs -> sent_of evs = [].
Proof.
  induction 1 as [|e evs He _ IH]; [done|].
  destruct e; simpl in He; try done; exact IH.
Qed.

Lemma sent_after_log c t evs code body :
  Forall is_log_event evs ->
  sent (mkWorld c (t ++ evs ++ [EStatus code; ESend body]))
  = sent (mkWorld c t) ++ [body].
Proof.
  intros Hevs. rewrite sent_app. f_equal.
  unfold sent_of. rewrite omap_app. fold (sent_of evs).
  by rewrite (sent_of_log_events evs Hevs).
Qed.

Lemma last_after_log (t evs : list event) a b :
  last (t ++ evs ++ [a; b]) = Some b.
Proof.
  change [a; b] with ([a] ++ [b]). rewrite !app_assoc. apply last_snoc.
Qed.

(** The [catch] block returns on everything but [null] and
    [undefined], and writes one line to the console. *)
Lemma logError_catch_returns e w :
  nullish e = false ->
  exists ev,
    logError_catch e w = (Ok tt, mkWorld (statusCode w) (trace w ++ [ev]))
    /\ is_log_event ev.
Proof.
  intros Hnull. unfold logError_catch, bind, lift, member, perform, emit.
  rewrite Hnull. exists (console_event e). split; [done|].
  by destruct e.
Qed.

Lemma logError_catch_eq e w :
  nullish e = false ->
  logError_catch e w = (Ok tt, emit (console_event e) w).
Proof.
  intros Hnull. unfold logError_catch, bind, lift, member, perform.
  by rewrite Hnull.
Qed.

(** ... and throws on those two, leaving no trace. *)
Lemma logError_catch_throws e w :
  nullish e = true ->
  logError_catch e w
  = (Throw (TypeError ("Cannot read properties of " +:+ to_string e)), w).
Proof.
  intros Hnull. unfold logError_catch, bind, lift, member.
  by rewrite Hnull.
Qed.

Lemma stack_lines_throws stack e :
  stack_lines stack = Throw e -> nullish e = false.
Proof.
  unfold stack_lines. destruct (js_or stack (VStr "")); by intros [= <-].
Qed.

(** With a logger that throws neither [null] nor [undefined],
    [logError] never throws and touches nothing but the log and the
    console. *)
Lemma logError_returns response error w :
  logger_safe ->
  exists evs,
    logError response error w
      = (Ok tt, mkWorld (statusCode w) (trace w ++ evs))
    /\ Forall is_log_event evs.
Proof.
  intros Hsafe.
  unfold logError, try_catch, bind, lift, self_logError.
  destruct (stack_lines (prop error "stack")) as [stack|e] eqn:Hstack.
  - match goal with
    | |- context [log_failure apos ?k ?m ?f] =>
        destruct (log_failure apos k m f) as [e|] eqn:Hlog
    end.
    + destruct (logError_catch_returns e
                  (emit (ELogError
                           ("api-error" +:+
                            (if is_num (resp_code response) 500 then ""
                             else "-" +:+ to_string (resp_name response)))
                           (if is_num (resp_code response) 500
                            then prop error "message"
                            else resp_message response)
                           (VObj [("name", resp_name response);
                                  ("status", resp_code response);
                                  ("stack", stack);
                                  ("cause", prop error "cause");
                                  ("errorPath", resp_path response);
                                  ("data", resp_data response)])) w)
                  (Hsafe _ _ _ _ Hlog))
        as (ev & -> & Hev).
      eexists [_; ev]. unfold emit. simpl. rewrite <- app_assoc.
      split; [reflexivity|]. by repeat constructor.
    + eexists [_]. split; [reflexivity|]. by repeat constructor.
  - destruct (logError_catch_returns e w (stack_lines_throws _ _ Hstack))
      as (ev & -> & Hev).
    eexists [ev]. split; [reflexivity|]. by repeat constructor.
Qed.

(** Once the error is normalised, [routeSendError] logs, then sets the
    status, then sends the body. *)
Lemma routeSendError_single req err response w :
  logger_safe ->
  req_res req = true -> isArray err = false ->
  getResponse err = Ok response ->
  exists evs,
    routeSendError (Some req) err w
      = (Ok tt, mkWorld (resp_code response)
                  (trace w ++ evs ++ [EStatus (resp_code response);
                                      ESend (error_body response)]))
    /\ logError response err w
        = (Ok tt, mkWorld (statusCode w) (trace w ++ evs))
    /\ Forall is_log_event evs.
Proof.
  intros Hsafe Hres Harr Hresp.
  destruct (logError_returns response err w Hsafe) as (evs & Hlog & Hevs).
  exists evs. split; [|done].
  unfold routeSendError. rewrite Hres, Harr.
  unfold bind, ret, lift. rewrite Hresp, Hlog.
  unfold perform, res_status, res_send, emit. simpl.
  by rewrite <- !app_assoc.
Qed.

Lemma getResponse_unknown err :
  nullish err = false -> known_code err = None ->
  getResponse err
  = Ok (mkResponse (VStr "error") (VObj []) (VNum 500) (prop err "path")
          util_error (VStr "An error occurred.")).
Proof.
  intros Hnull Hk. rewrite getResponse_unfold. unfold getResponse_body.
  rewrite Hk. unfold member. rewrite Hnull. done.
Qed.

Lemma known_code_unmapped err :
  truthy (http_errors_at (to_string (prop err "name"))) = false ->
  known_code err = None.
Proof.
  intros H. unfold known_code. rewrite H.
  by destruct (truthy err && truthy (prop err "name"))%bool.
Qed.

(** An error under whose name the taxonomy object holds nothing truthy,
    neither of its own nor inherited, is answered with status 500 and
    exactly the body
    [{ name: "error", data: {}, message: "An error occurred." }]; that
    body is a constant, so nothing of the error shows in it. *)
Lemma routeSendError_unknown req err w :
  logger_safe ->
  req_res req = true ->
  nullish err = false ->
  isArray err = false ->
  truthy (http_errors_at (to_string (prop err "name"))) = false ->
  exists w',
    routeSendError (Some req) err w = (Ok tt, w')
    /\ statusCode w' = VNum 500
    /\ sent w' = sent w ++ [VObj [("name", VStr "error");
                                  ("data", VObj []);
                                  ("message", VStr "An error occurred.")]]
    /\ last (trace w') = Some (ESend (VObj [("name", VStr "error");
                                            ("data", VObj []);
                                            ("message",
                                             VStr "An error occurred.")])).
Proof.
  intros Hsafe Hres Hnull Harr Hname.
  pose proof (getResponse_unknown err Hnull (known_code_unmapped err Hname))
    as Hresp.
  destruct (routeSendError_single req err _ w Hsafe Hres Harr Hresp)
    as (evs & Hsend & _ & Hevs).
  eexists. split; [exact Hsend|]. simpl. split; [done|]. split.
  - destruct w as [c t]. by rewrite sent_after_log.
  - apply last_after_log.
Qed.

(** *** Normalising an error and its sub-errors *)

Lemma mapM_bind_eq {A B C : Type} (f : A -> result B) (g : B -> C) l :
  mapM (fun x => result_bind (f x) (fun y => Ok (g y))) l
  = result_bind (mapM f l) (fun rs => Ok (map g rs)).
Proof.
  induction l as [|x l IH]; simpl; [done|].
  destruct (f x) as [y|e]; simpl; [|done].
  rewrite IH. by destruct (mapM f l).
Qed.

Lemma mapM_bind_map {A B C : Type} (f : A -> result B) (g : B -> C) l ys :
  mapM (fun x => result_bind (f x) (fun y => Ok (g y))) l = Ok ys <->
  exists rs, mapM f l = Ok rs /\ ys = map g rs.
Proof.
  rewrite mapM_bind_eq. destruct (mapM f l) as [rs|e]; simpl.
  - split; [intros [= <-]; eauto | intros (rs' & [= <-] & ->); done].
  - split; [done | intros (? & ? & _); done].
Qed.

Lemma known_code_not_nullish err c :
  known_code err = Some c -> nullish err = false.
Proof. unfold known_code. by destruct err. Qed.

(** [getResponse] in one equation: it throws on [null] and [undefined],
    and otherwise returns the first response with its sub-errors
    normalised in place. *)
Lemma getResponse_eq err :
  getResponse err =
  if nullish err
  then Throw (TypeError ("Cannot read properties of " +:+ to_string err))
  else if has_sub_errors (first_response err)
       then result_bind
              (mapM getResponse
                 (items_of (prop (resp_data (first_response err)) "errors")))
              (fun rs =>
                 Ok (with_data (first_response err)
                       (set_prop (resp_data (first_response err)) "errors"
                          (VArr (map sub_entry rs)))))
       else Ok (first_response err).
Proof.
  rewrite getResponse_unfold. unfold getResponse_body, first_response.
  destruct (known_code err) as [c|] eqn:Hk.
  - rewrite (known_code_not_nullish err c Hk). cbn [result_bind].
    unfold has_sub_errors.
    destruct (is_str _ _ && isArray _)%bool; [|done].
    rewrite mapM_bind_eq. by destruct (mapM getResponse _).
  - unfold member. destruct (nullish err); [done|]. cbn [result_bind].
    unfold has_sub_errors. done.
Qed.

(** The shape of every response [getResponse] returns. *)
Lemma getResponse_inv err r :
  getResponse err = Ok r ->
  nullish err = false
  /\ if has_sub_errors (first_response err)
     then exists rs,
       mapM getResponse (items_of (prop (resp_data (first_response err))
                                    "errors")) = Ok rs
       /\ r = with_data (first_response err)
                (set_prop (resp_data (first_response err)) "errors"
                   (VArr (map sub_entry rs)))
     else r = first_response err.
Proof.
  rewrite getResponse_eq. destruct (nullish err); [done|].
  destruct (has_sub_errors (first_response err)).
  - destruct (mapM getResponse _) as [rs|e]; cbn [result_bind]; [|done].
    intros [= <-]. eauto.
  - by intros [= <-].
Qed.

(** ... and conversely. *)
Lemma getResponse_intro err :
  nullish err = false ->
  forall r,
    (if has_sub_errors (first_response err)
     then exists rs,
       mapM getResponse (items_of (prop (resp_data (first_response err))
                                    "errors")) = Ok rs
       /\ r = with_data (first_response err)
                (set_prop (resp_data (first_response err)) "errors"
                   (VArr (map sub_entry rs)))
     else r = first_response err) ->
    getResponse err = Ok r.
Proof.
  intros Hnull r. rewrite getResponse_eq, Hnull.
  destruct (has_sub_errors (first_response err)).
  - intros (rs & -> & ->). done.
  - by intros ->.
Qed.

Lemma first_items_depth err x :
  In x (items_of (prop (resp_data (first_response err)) "errors")) ->
  (depth x < depth err)%nat.
Proof.
  intros Hx. apply depth_prop_items in Hx. unfold first_response in Hx.
  destruct (known_code err); simpl in Hx; [|lia].
  unfold js_or in Hx. pose proof (depth_prop err "data").
  destruct (truthy (prop err "data")); simpl in Hx; lia.
Qed.

Lemma first_items_sub err x :
  In x (items_of (prop (resp_data (first_response err)) "errors")) ->
  In x (items_of (prop (prop err "data") "errors")).
Proof.
  unfold first_response. destruct (known_code err); [|done]. simpl.
  unfold js_or. by destruct (truthy (prop err "data")).
Qed.

(** [getResponse] returns on every well-formed error. *)
Lemma getResponse_total err :
  well_formed err -> exists r, getResponse err = Ok r.
Proof.
  induction 1 as [err Hnull _ IH].
  destruct (has_sub_errors (first_response err)) eqn:Hsub.
  - destruct (mapM_total getResponse
                (items_of (prop (resp_data (first_response err)) "errors")))
      as [rs Hrs].
    + intros x Hx. by apply IH, first_items_sub.
    + eexists. apply getResponse_intro; [done|]. rewrite Hsub. eauto.
  - eexists. apply getResponse_intro; [done|]. by rewrite Hsub.
Qed.

Lemma mapM_map_idem {A B : Type} (f : A -> result B) (g : B -> A) l rs :
  mapM f l = Ok rs ->
  (forall x r, In x l -> f x = Ok r -> f (g r) = Ok r) ->
  mapM f (map g rs) = Ok rs.
Proof.
  revert rs. induction l as [|x l IH]; simpl; intros rs.
  - by intros [= <-].
  - destruct (f x) as [r|] eqn:Ex; simpl; [|done].
    destruct (mapM f l) as [rs0|]; simpl; [|done].
    intros [= <-] H. simpl. rewrite (H x r (or_introl eq_refl) Ex). simpl.
    rewrite (IH rs0 eq_refl); [done|].
    intros x' r' Hx'. apply H. by right.
Qed.

Lemma mapM_entries_idem {A B : Type} (f : A -> result B) (g : A -> B -> A)
    l rs :
  mapM f l = Ok rs ->
  (forall x r, In x l -> f x = Ok r -> f (g x r) = Ok r) ->
  exists ys,
    mapM (fun x => result_bind (f x) (fun r => Ok (g x r))) l = Ok ys
    /\ mapM f ys = Ok rs.
Proof.
  revert rs. induction l as [|x l IH]; simpl; intros rs.
  - intros [= <-] _. by exists [].
  - destruct (f x) as [r|] eqn:Ex; simpl; [|done].
    destruct (mapM f l) as [rs0|]; simpl; [|done].
    intros [= <-] H.
    destruct (IH rs0 eq_refl) as (ys & -> & Hys).
    { intros x' r' Hx'. apply H. by right. }
    simpl. eexists. split; [done|]. simpl.
    rewrite (H x r (or_introl eq_refl) Ex). simpl. by rewrite Hys.
Qed.

Lemma known_code_inv err c :
  known_code err = Some c ->
  truthy (prop err "name") = true
  /\ http_errors_at (to_string (prop err "name")) = c
  /\ truthy c = true.
Proof.
  unfold known_code.
  destruct (truthy err); simpl; [|done].
  destruct (truthy (prop err "name")); simpl; [|done].
  destruct (truthy (http_errors_at (to_string (prop err "name")))) eqn:E;
    [|done].
  by intros [= <-].
Qed.

Lemma known_code_intro e (n : value) c :
  (exists fs, e = VObj fs) -> prop e "name" = n -> truthy n = true ->
  http_errors_at (to_string n) = c -> truthy c = true ->
  known_code e = Some c.
Proof.
  intros [fs ->] Hn Ht Hc Hc0. unfold known_code. rewrite Hn, Ht, Hc. simpl.
  by rewrite Hc0.
Qed.

(** A name the taxonomy owns reads as its status. *)
Lemma http_errors_at_own name c :
  http_errors apos !! name = Some c -> http_errors_at name = VNum c.
Proof. intros H. unfold http_errors_at. by rewrite H. Qed.

(** Only a name the taxonomy owns reads as a number. *)
Lemma http_errors_at_number name c :
  http_errors_at name = VNum c -> http_errors apos !! name = Some c.
Proof.
  unfold http_errors_at, Object_prototype.
  destruct (http_errors apos !! name); [by intros [= ->]|].
  by repeat case_match.
Qed.

Lemma truthy_first_data err : truthy (resp_data (first_response err)) = true.
Proof.
  unfold first_response. destruct (known_code err); [|done]. simpl.
  unfold js_or. by destruct (truthy (prop err "data")) eqn:E.
Qed.

Lemma truthy_set_prop d (k : string) x :
  truthy d = true -> truthy (set_prop d k x) = true.
Proof. by destruct d. Qed.

(** An object that reads as the first response of [err] has the same
    first response, provided the generic name is not itself mapped. *)
Lemma first_response_reads err e r :
  http_errors apos !! "error" = None ->
  nullish err = false ->
  resp_name r = resp_name (first_response err) ->
  resp_code r = resp_code (first_response err) ->
  resp_path r = resp_path (first_response err) ->
  resp_fn r = resp_fn (first_response err) ->
  resp_message r = resp_message (first_response err) ->
  truthy (resp_data r) = true ->
  (known_code err = None -> resp_data r = VObj []) ->
  reads_as e r ->
  first_response e = r.
Proof.
  intros Herror Hnull Hname Hcode Hpath Hfn Hmsg Hdata Hdata0
    (Hobj & En & Ed & Em & Ep).
  destruct r as [rn rd rc rp rf rm]. simpl in *.
  unfold first_response in *.
  destruct (known_code err) as [c|] eqn:Hk; simpl in *.
  - destruct (known_code_inv err c Hk) as (Ht & Hc & Hc0).
    rewrite (known_code_intro e rn c); [|done|done|by subst|by subst|done].
    rewrite En, Ed, Em, Ep. unfold js_or. rewrite Hdata. by subst.
  - assert (known_code e = None) as ->.
    { destruct Hobj as [fs ->]. unfold known_code. rewrite En, Hname. simpl.
      unfold http_errors_at. by rewrite Herror. }
    rewrite Ep, (Hdata0 eq_refl). by subst.
Qed.

(** Normalising a normalised entry changes nothing: the second pass that
    [getResponse] makes over the entries of an [invalid] error returns
    the responses of the first. *)
Lemma getResponse_idem err r e :
  http_errors apos !! "error" = None ->
  getResponse err = Ok r -> reads_as e r -> getResponse e = Ok r.
Proof.
  intros Herror. remember (depth err) as n eqn:Hn. revert err Hn r e.
  induction n as [n IH] using lt_wf_ind. intros err -> r e Hr He.
  apply getResponse_inv in Hr as [Hnull Hr].
  assert (He' := He). destruct He' as ([fs ->] & _).
  apply getResponse_intro; [done|].
  destruct (has_sub_errors (first_response err)) eqn:Hsub.
  - destruct Hr as (rs & Hrs & ->).
    set (f := first_response err) in *.
    set (d := resp_data f) in *.
    assert (Hd : exists ds, d = VObj ds).
    { unfold has_sub_errors in Hsub. apply andb_prop in Hsub as [_ Hsub].
      fold d in Hsub. destruct d; try done. eauto. }
    destruct Hd as [ds Hd].
    assert (first_response (VObj fs)
            = with_data f (set_prop d "errors" (VArr (map sub_entry rs))))
      as ->.
    { apply (first_response_reads err); try done.
      - simpl. by rewrite Hd.
      - intros Hk. unfold has_sub_errors, f, first_response in Hsub.
        by rewrite Hk in Hsub. }
    assert (has_sub_errors
              (with_data f (set_prop d "errors" (VArr (map sub_entry rs))))
            = true) as ->.
    { unfold has_sub_errors in *. simpl.
      apply andb_prop in Hsub as [-> _]. rewrite Hd. simpl.
      by rewrite assoc_set_same. }
    exists rs. simpl. rewrite Hd. simpl. rewrite assoc_set_same. simpl.
    split.
    + apply (mapM_map_idem getResponse sub_entry _ rs Hrs).
      intros x r Hx Hxr.
      apply (IH (depth x) (first_items_depth err x Hx) x eq_refl r); [done|].
      unfold reads_as, sub_entry. simpl. eauto 10.
    + unfold with_data. simpl. by rewrite assoc_set_twice.
  - subst r.
    assert (first_response (VObj fs) = first_response err) as ->.
    { apply (first_response_reads err); try done.
      - apply truthy_first_data.
      - intros Hk. unfold first_response. by rewrite Hk. }
    by rewrite Hsub.
Qed.

Lemma js_or_errors d :
  isArray (prop (js_or d (VObj [])) "errors") = isArray (prop d "errors")
  /\ (isArray (prop d "errors") = true -> js_or d (VObj []) = d).
Proof.
  unfold js_or. destruct d as [| |b|z|s0|l|fs|n]; simpl; try done.
  - by destruct b.
  - by destruct (Z.eqb z 0).
  - by destruct (String.eqb s0 "").
Qed.

(** The normalisation of an error the taxonomy maps. *)
Lemma getResponse_known err c r :
  known_code err = Some c -> getResponse err = Ok r ->
  resp_name r = prop err "name"
  /\ resp_code r = c
  /\ resp_message r = prop err "message"
  /\ resp_path r = prop err "path"
  /\ resp_fn r = util_info
  /\ if (is_str (prop err "name") "invalid"
         && isArray (prop (prop err "data") "errors"))%bool
     then exists subs,
       mapM getResponse (items_of (prop (prop err "data") "errors")) = Ok subs
       /\ resp_data r
          = set_prop (prop err "data") "errors" (VArr (map sub_entry subs))
     else resp_data r = js_or (prop err "data") (VObj []).
Proof.
  intros Hk [_ Hr]%getResponse_inv.
  unfold has_sub_errors, first_response in Hr. rewrite Hk in Hr.
  simpl in Hr. destruct (js_or_errors (prop err "data")) as [Harr Hor].
  rewrite Harr in Hr.
  destruct (is_str (prop err "name") "invalid"
            && isArray (prop (prop err "data") "errors"))%bool eqn:Hsub.
  - apply andb_prop in Hsub as [_ Hsub]. rewrite (Hor Hsub) in Hr.
    destruct Hr as (rs & Hrs & ->). simpl. eauto 10.
  - by subst r.
Qed.

(** The normalisation of any other error. *)
Lemma getResponse_unknown_inv err r :
  known_code err = None -> getResponse err = Ok r ->
  r = mkResponse (VStr "error") (VObj []) (VNum 500) (prop err "path")
        util_error (VStr "An error occurred.").
Proof.
  intros Hk Hr. destruct (getResponse_inv err r Hr) as [Hnull _].
  rewrite (getResponse_unknown err Hnull Hk) in Hr. by injection Hr.
Qed.

Lemma mapM_getResponse_ok errs :
  Forall well_formed errs ->
  exists rs, mapM getResponse errs = Ok rs.
Proof.
  intros H. apply mapM_total. intros x Hx. apply getResponse_total.
  rewrite Forall_forall in H. apply H. by apply list_elem_of_In.
Qed.

(** The response to the synthetic [invalid] error that stands for an
    array of errors. *)
Lemma getResponse_array errs rs code :
  http_errors apos !! "invalid" = Some code -> code <> 0 ->
  http_errors apos !! "error" = None ->
  mapM getResponse errs = Ok rs ->
  exists entries,
    mapM (fun err => result_bind (getResponse err) (fun response =>
                     Ok (array_entry err response))) errs = Ok entries
    /\ getResponse (apos_error "invalid" (VObj [("errors", VArr entries)]))
       = Ok (mkResponse (VStr "invalid")
               (VObj [("errors", VArr (map sub_entry rs))]) (VNum code)
               (prop (VObj (error_own apos "invalid")) "path") util_info
               (prop (VObj (error_own apos "invalid")) "message")).
Proof.
  intros Hinvalid Hcode Herror Hrs.
  destruct (mapM_entries_idem getResponse array_entry errs rs Hrs)
    as (entries & Hentries & Hagain).
  { intros x r _ Hx. apply (getResponse_idem x r); [done..|].
    apply getResponse_inv in Hx as [_ Hx].
    assert (resp_path r = prop x "path") as Hpath.
    { destruct (has_sub_errors (first_response x));
        [destruct Hx as (? & _ & ->) | subst r];
        unfold first_response; by destruct (known_code x). }
    unfold reads_as, array_entry. simpl. rewrite Hpath. eauto 10. }
  exists entries. split; [done|].
  apply getResponse_intro; [done|].
  assert (known_code (apos_error "invalid" (VObj [("errors", VArr entries)]))
          = Some (VNum code)) as Hk.
  { apply (known_code_intro _ (VStr "invalid")); try done.
    - unfold apos_error. eauto.
    - by apply http_errors_at_own.
    - simpl. by apply negb_true_iff, Z.eqb_neq. }
  unfold first_response. rewrite Hk.
  unfold has_sub_errors, apos_error. simpl.
  exists rs. done.
Qed.

(** C2, as amended.  An array of well-formed errors is answered with one
    [invalid] envelope, given a taxonomy that maps [invalid] and does not
    map [error], and a logger that throws neither [null] nor
    [undefined].  Its [data.errors] has the length and order of the
    array; each entry holds the [name], [code], [message], [data] and
    [path] of the normalisation of the error at its place and nothing
    else.  An error whose name the taxonomy maps to a status keeps its
    name, message and path with the mapped status, and its data (or
    [{}] for want of any), except that the sub-errors of an [invalid]
    one are themselves normalised; an error under whose name the
    taxonomy object yields nothing truthy, a nested array included,
    becomes [error], 500, the generic message and [{}]. *)
Theorem routeSendError_array req errs w code :
  logger_safe ->
  req_res req = true ->
  http_errors apos !! "invalid" = Some code -> code <> 0 ->
  http_errors apos !! "error" = None ->
  Forall well_formed errs ->
  exists rs evs,
    mapM getResponse errs = Ok rs
    /\ routeSendError (Some req) (VArr errs) w
       = (Ok tt,
          mkWorld (VNum code)
            (trace w ++ evs ++
             [EStatus (VNum code);
              ESend (VObj [("name", VStr "invalid");
                           ("data", VObj [("errors",
                                           VArr (map sub_entry rs))]);
                           ("message",
                            prop (VObj (error_own apos "invalid"))
                              "message")])]))
    /\ Forall is_log_event evs
    /\ List.length (map sub_entry rs) = List.length errs
    /\ forall (i : nat) err, errs !! i = Some err ->
       exists r,
         getResponse err = Ok r
         /\ map sub_entry rs !! i
            = Some (VObj [("name", resp_name r); ("code", resp_code r);
                          ("message", resp_message r); ("data", resp_data r);
                          ("path", resp_path r)])
         /\ (forall c : Z, known_code err = Some (VNum c) ->
               resp_name r = prop err "name"
               /\ resp_code r = VNum c
               /\ resp_message r = prop err "message"
               /\ resp_path r = prop err "path"
               /\ if (is_str (prop err "name") "invalid"
                      && isArray (prop (prop err "data") "errors"))%bool
                  then exists subs,
                    mapM getResponse
                      (items_of (prop (prop err "data") "errors")) = Ok subs
                    /\ resp_data r
                       = set_prop (prop err "data") "errors"
                           (VArr (map sub_entry subs))
                  else resp_data r = js_or (prop err "data") (VObj []))
         /\ (known_code err = None ->
               resp_name r = VStr "error"
               /\ resp_code r = VNum 500
               /\ resp_message r = VStr "An error occurred."
               /\ resp_data r = VObj []
               /\ resp_path r = prop err "path")
         /\ (isArray err = true -> known_code err = None).
Proof.
  intros Hsafe Hres Hinvalid Hcode Herror Hok.
  destruct (mapM_getResponse_ok errs Hok) as [rs Hrs].
  destruct (getResponse_array errs rs code Hinvalid Hcode Herror Hrs)
    as (entries & Hentries & Hresp).
  set (response := mkResponse (VStr "invalid")
         (VObj [("errors", VArr (map sub_entry rs))]) (VNum code)
         (prop (VObj (error_own apos "invalid")) "path") util_info
         (prop (VObj (error_own apos "invalid")) "message")) in *.
  destruct (logError_returns response
              (apos_error "invalid" (VObj [("errors", VArr entries)])) w
              Hsafe)
    as (evs & Hlog & Hevs).
  exists rs, evs. split; [done|]. split; [|split; [done|split]].
  - unfold routeSendError. rewrite Hres. simpl isArray. cbv iota.
    unfold bind at 1. unfold bind at 1. unfold lift at 1.
    simpl items_of. rewrite Hentries. unfold ret at 1.
    unfold bind at 1. unfold lift. rewrite Hresp.
    unfold bind. rewrite Hlog.
    unfold perform, res_status, res_send, emit. simpl.
    by rewrite <- !app_assoc.
  - rewrite length_map. by apply (mapM_length getResponse).
  - intros i err Hi.
    destruct (mapM_lookup getResponse errs rs i err Hrs Hi) as (r & Hr & Hri).
    exists r. split; [done|]. split; [|split; [|split]].
    + rewrite list_lookup_fmap, Hri. done.
    + intros c Hk.
      destruct (getResponse_known err (VNum c) r Hk Hr)
        as (? & ? & ? & ? & _ & ?).
      done.
    + intros Hk. by rewrite (getResponse_unknown_inv err r Hk Hr).
    + by destruct err.
Qed.

(** *** Logging *)

(** [logError] step by step: the call of the structured logger,
    followed by the [catch] block if that call throws; or the [catch]
    block alone if the stack cannot be split. *)
Lemma logError_trace response error w :
  logError response error w =
  match stack_lines (prop error "stack") with
  | Ok stack =>
      let key :=
        "api-error" +:+ (if is_num (resp_code response) 500 then ""
                         else "-" +:+ to_string (resp_name response)) in
      let msg :=
        if is_num (resp_code response) 500 then prop error "message"
        else resp_message response in
      let fields :=
        VObj [("name", resp_name response);
              ("status", resp_code response);
              ("stack", stack);
              ("cause", prop error "cause");
              ("errorPath", resp_path response);
              ("data", resp_data response)] in
      match log_failure apos key msg fields with
      | Some e => logError_catch e (emit (ELogError key msg fields) w)
      | None => (Ok tt, emit (ELogError key msg fields) w)
      end
  | Throw e => logError_catch e w
  end.
Proof.
  unfold logError, try_catch, bind, lift, self_logError.
  destruct (stack_lines (prop error "stack")) as [stack|e]; [|done].
  cbv zeta. by destruct (log_failure apos _ _ _).
Qed.

(** [routeSendError] on a single error, after the normalisation: the
    status and the body follow [logError] unless that throws. *)
Lemma routeSendError_after_log req err response w :
  req_res req = true -> isArray err = false ->
  getResponse err = Ok response ->
  routeSendError (Some req) err w =
  match logError response err w with
  | (Ok _, w1) =>
      (Ok tt,
       mkWorld (resp_code response)
         (trace w1 ++ [EStatus (resp_code response);
                       ESend (error_body response)]))
  | (Throw e, w1) => (Throw e, w1)
  end.
Proof.
  intros Hres Harr Hresp. unfold routeSendError. rewrite Hres, Harr.
  unfold bind, ret, lift. rewrite Hresp.
  destruct (logError response err w) as [[[]|e] w1]; [|done].
  unfold perform, res_status, res_send, emit. simpl.
  by rewrite <- app_assoc.
Qed.

(** X3. For an error that is there and whose stack, if any, is a string,
    the structured log call comes first, under the key [api-error] for a
    500 and [api-error-<name>] otherwise, with the stack less its top
    line.  When the logger returns, the status and the body follow; when
    it throws, the console comes in between; when what it throws is
    [null] or [undefined], the call throws in its turn and the log call
    is all there is. *)
Lemma routeSendError_logs_first req err response w s :
  req_res req = true -> isArray err = false ->
  getResponse err = Ok response ->
  js_or (prop err "stack") (VStr "") = VStr s ->
  exists key,
    let msg :=
      if is_num (resp_code response) 500 then prop err "message"
      else resp_message response in
    let fields :=
      VObj [("name", resp_name response);
            ("status", resp_code response);
            ("stack",
             VArr (map (fun line => VStr (trim line))
                     (tail (split "010" s))));
            ("cause", prop err "cause");
            ("errorPath", resp_path response);
            ("data", resp_data response)] in
    let log := ELogError key msg fields in
    (resp_code response = VNum 500 -> key = "api-error")
    /\ (resp_code response <> VNum 500 ->
        key = "api-error-" +:+ to_string (resp_name response))
    /\ match log_failure apos key msg fields with
       | None =>
           routeSendError (Some req) err w
           = (Ok tt,
              mkWorld (resp_code response)
                (trace w ++ [log; EStatus (resp_code response);
                             ESend (error_body response)]))
       | Some e =>
           if nullish e
           then routeSendError (Some req) err w
                = (Throw (TypeError ("Cannot read properties of "
                                     +:+ to_string e)),
                   mkWorld (statusCode w) (trace w ++ [log]))
           else exists console,
                  is_console_event console
                  /\ routeSendError (Some req) err w
                     = (Ok tt,
                        mkWorld (resp_code response)
                          (trace w ++ [log; console;
                                       EStatus (resp_code response);
                                       ESend (error_body response)]))
       end.
Proof.
  intros Hres Harr Hresp Hstack.
  rewrite (routeSendError_after_log req err response w Hres Harr Hresp).
  rewrite logError_trace. unfold stack_lines. rewrite Hstack. cbv zeta.
  exists ("api-error" +:+ (if is_num (resp_code response) 500 then ""
                           else "-" +:+ to_string (resp_name response))).
  split; [|split].
  - intros Hc. by rewrite Hc.
  - intros Hne.
    assert (is_num (resp_code response) 500 = false) as ->; [|done].
    destruct (resp_code response) as [| | |z| | | |]; try done. simpl.
    apply Z.eqb_neq. congruence.
  - destruct (log_failure apos _ _ _) as [e|];
      [|unfold emit; simpl; by rewrite <- app_assoc].
    destruct (nullish e) eqn:Hnull.
    + by rewrite logError_catch_throws.
    + exists (console_event e). split; [by destruct e|].
      rewrite logError_catch_eq by done. unfold emit. simpl.
      by rewrite <- !app_assoc.
Qed.

(** C7, at the input where it fails: when the error is [undefined] or
    [null], [routeSendError] throws while it reads [err.path]; nothing
    has been logged and no response is sent. *)
Theorem routeSendError_nullish_throws method user params session headers
    data w :
  let req := mkRequest method user params session headers data true in
  routeSendError (Some req) VUndefined w
  = (Throw (TypeError "Cannot read properties of undefined"), w)
  /\ routeSendError (Some req) VNull w
     = (Throw (TypeError "Cannot read properties of null"), w).
Proof.
  unfold routeSendError. cbn [req_res isArray]. unfold bind, ret, lift.
  by rewrite !getResponse_eq.
Qed.

(** *** Route URLs *)

Lemma substring_0_1 (name : string) :
  substring 0 1 name =
  match name with
  | EmptyString => EmptyString
  | String c _ => String c EmptyString
  end.
Proof. destruct name as [|c [|c' name]]; done. Qed.

Lemma starts_with_slash_eqb name :
  String.eqb (substring 0 1 name) "/" = true <-> starts_with_slash name.
Proof.
  rewrite substring_0_1, String.eqb_eq. unfold starts_with_slash.
  destruct name as [|c name].
  - split; [done | intros [? ?]; done].
  - split; [intros [= ->]; eauto | intros [? [= -> _]]; done].
Qed.

Lemma has_url_char_holds name :
  has_url_char name = true <-> holds_url_char name.
Proof.
  unfold holds_url_char. induction name as [|c name IH]; simpl.
  - split; [done | intros (? & [] & _)].
  - rewrite !orb_true_iff, !Ascii.eqb_eq, IH. split.
    + intros [[[->| ->]| ->]|(c' & Hc' & H)]; eauto 10.
    + intros (c' & [<-|Hc'] & H); [tauto | eauto 10].
Qed.

(** *** The REST shorthand *)

Lemma apiRoute_set_same method name r self :
  apiRoute (setApiRoute method name r self) method name = Some (CRoute r).
Proof.
  unfold apiRoute, setApiRoute. simpl.
  by rewrite !assoc_set_same.
Qed.

Lemma apiRoute_set_other method name r self method' name' :
  method <> method' \/ name <> name' ->
  apiRoute (setApiRoute method name r self) method' name'
  = apiRoute self method' name'.
Proof.
  intros Hne. unfold apiRoute, setApiRoute. simpl.
  destruct (String.eqb_spec method method') as [<-|Hm].
  - rewrite assoc_set_same. destruct Hne as [?|Hn]; [done|].
    rewrite assoc_set_other by done.
    by destruct (assoc method (apiRoutes self)).
  - by rewrite assoc_set_other.
Qed.

Lemma apiRoute_when_same (b : bool) method name r self :
  apiRoute (when b (setApiRoute method name r) self) method name
  = if b then Some (CRoute r) else apiRoute self method name.
Proof. destruct b; [apply apiRoute_set_same | done]. Qed.

Lemma apiRoute_when_other (b : bool) method name r self method' name' :
  method <> method' \/ name <> name' ->
  apiRoute (when b (setApiRoute method name r) self) method' name'
  = apiRoute self method' name'.
Proof. destruct b; [apply apiRoute_set_other | done]. Qed.

(** [route.slice(0, route.length - 1).concat([ wrapId(last) ])] *)
Lemma wrapId_array l :
  wrapId (RArr l)
  = RArr (removelast l ++ [wrapId (default RUndef (last l))]).
Proof.
  simpl. f_equal. induction l as [|x l IH]; [done|].
  destruct l as [|y l]; [done|].
  transitivity
    (x :: (removelast (y :: l) ++ [wrapId (default RUndef (last (y :: l)))]));
    [|done].
  rewrite <- IH. done.
Qed.

Lemma wrapId_snoc mws last :
  wrapId (RArr (mws ++ [last])) = RArr (mws ++ [wrapId last]).
Proof.
  rewrite wrapId_array, removelast_last, last_snoc. done.
Qed.

(** Where each shorthand ends up in [self.apiRoutes]. *)
Lemma rest_slots self :
  let rest := restApiRoutes self in
  let self' := compileRestApiRoutesToApiRoutes self in
  apiRoute self' "get" ""
  = (if route_truthy (rest_getAll rest) then Some (CRoute (rest_getAll rest))
     else apiRoute self "get" "")
  /\ apiRoute self' "post" ""
     = (if route_truthy (rest_post rest) then Some (CRoute (rest_post rest))
        else apiRoute self "post" "")
  /\ apiRoute self' "get" ":_id"
     = (if route_truthy (rest_getOne rest)
        then Some (CRoute (wrapId (rest_getOne rest)))
        else apiRoute self "get" ":_id")
  /\ apiRoute self' "put" ":_id"
     = (if route_truthy (rest_put rest)
        then Some (CRoute (wrapId (rest_put rest)))
        else apiRoute self "put" ":_id")
  /\ apiRoute self' "patch" ":_id"
     = (if route_truthy (rest_patch rest)
        then Some (CRoute (wrapId (rest_patch rest)))
        else apiRoute self "patch" ":_id")
  /\ apiRoute self' "delete" ":_id"
     = (if route_truthy (rest_delete rest)
        then Some (CRoute (wrapId (rest_delete rest)))
        else apiRoute self "delete" ":_id").
Proof.
  cbv zeta. unfold compileRestApiRoutesToApiRoutes.
  repeat apply conj;
    repeat first
      [ rewrite apiRoute_when_other by (by (left + right))
      | rewrite apiRoute_when_same ];
    done.
Qed.

(** C5. The REST shorthand becomes generic API routes: [getAll] and
    [post] are stored as they are under the route name [''];  [getOne],
    [put], [patch] and [delete] are stored under [':_id'] through
    [wrapId], which keeps every middleware entry of an array and rewrites
    its last entry only, the rewritten function calling the original
    with [req.params._id] as second argument.  A shorthand that is not
    declared leaves its slot alone. *)
Theorem compileRestApiRoutesToApiRoutes_spec self :
  let rest := restApiRoutes self in
  let self' := compileRestApiRoutesToApiRoutes self in
  apiRoute self' "get" ""
  = (if route_truthy (rest_getAll rest) then Some (CRoute (rest_getAll rest))
     else apiRoute self "get" "")
  /\ apiRoute self' "post" ""
     = (if route_truthy (rest_post rest) then Some (CRoute (rest_post rest))
        else apiRoute self "post" "")
  /\ apiRoute self' "get" ":_id"
     = (if route_truthy (rest_getOne rest)
        then Some (CRoute (wrapId (rest_getOne rest)))
        else apiRoute self "get" ":_id")
  /\ apiRoute self' "put" ":_id"
     = (if route_truthy (rest_put rest)
        then Some (CRoute (wrapId (rest_put rest)))
        else apiRoute self "put" ":_id")
  /\ apiRoute self' "patch" ":_id"
     = (if route_truthy (rest_patch rest)
        then Some (CRoute (wrapId (rest_patch rest)))
        else apiRoute self "patch" ":_id")
  /\ apiRoute self' "delete" ":_id"
     = (if route_truthy (rest_delete rest)
        then Some (CRoute (wrapId (rest_delete rest)))
        else apiRoute self "delete" ":_id")
  /\ (forall f req arg w,
        call (wrapId (RFun f)) req arg w
        = match member (req_params req) "_id" with
          | Ok id => f req id w
          | Throw e => (Throw e, w)
          end)
  /\ (forall mws last,
        wrapId (RArr (mws ++ [last])) = RArr (mws ++ [wrapId last])).
Proof.
  cbv zeta.
  destruct (rest_slots self) as (H1 & H2 & H3 & H4 & H5 & H6).
  repeat apply conj; try done. apply wrapId_snoc.
Qed.

(** C4. A route name that starts with a slash is its own URL; one that
    holds a slash, a colon or a star goes after the action prefix and a
    slash as it is; any other goes there in hyphenated form, so that
    [saveArea], which hyphenates to [save-area], is
    [/api/v1/test/save-area] in the module [test]. *)
Theorem getRouteUrl_cases self name :
  (starts_with_slash name -> getRouteUrl self name = name)
  /\ (~ starts_with_slash name -> holds_url_char name ->
      getRouteUrl self name = action self +:+ "/" +:+ name)
  /\ (~ starts_with_slash name -> ~ holds_url_char name ->
      getRouteUrl self name
      = action self +:+ "/" +:+ util_cssName apos name)
  /\ (util_cssName apos "saveArea" = "save-area" ->
      getRouteUrl (enableAction (mkModule "test" "" [] [] []
                                   (mkRestApi RUndef RUndef RUndef RUndef
                                      RUndef RUndef) []))
        "saveArea"
      = "/api/v1/test/save-area").
Proof.
  pose proof (starts_with_slash_eqb name) as Hs.
  pose proof (has_url_char_holds name) as Hc.
  repeat apply conj.
  - intros H%Hs. unfold getRouteUrl. by rewrite H.
  - intros Hn H%Hc. unfold getRouteUrl. rewrite H.
    destruct (String.eqb (substring 0 1 name) "/"); [|done].
    exfalso. by apply Hn, Hs.
  - intros Hn Hn'. unfold getRouteUrl.
    destruct (String.eqb (substring 0 1 name) "/");
      [exfalso; by apply Hn, Hs|].
    destruct (has_url_char name); [exfalso; by apply Hn', Hc|]. done.
  - intros Hcss. unfold getRouteUrl. rewrite Hcss. done.
Qed.

(** *** The order of the route table *)

Lemma sectionRoutes_ext self self' sec :
  action self = action self' -> section_of self sec = section_of self' sec ->
  sectionRoutes self sec = sectionRoutes self' sec.
Proof.
  intros Ha Hs. unfold sectionRoutes, compileRoute, getRouteUrl.
  by rewrite Ha, Hs.
Qed.

Lemma compileRest_keeps self :
  let self' := compileRestApiRoutesToApiRoutes self in
  action self' = action self
  /\ routes self' = routes self
  /\ renderRoutes self' = renderRoutes self
  /\ _routes self' = _routes self.
Proof.
  unfold compileRestApiRoutesToApiRoutes, when.
  destruct (route_truthy (rest_getAll (restApiRoutes self)));
    destruct (route_truthy (rest_getOne (restApiRoutes self)));
    destruct (route_truthy (rest_delete (restApiRoutes self)));
    destruct (route_truthy (rest_patch (restApiRoutes self)));
    destruct (route_truthy (rest_put (restApiRoutes self)));
    destruct (route_truthy (rest_post (restApiRoutes self))); done.
Qed.

Lemma sectionRoutes_contains self sec method table name cfg :
  assoc method (section_of self sec) = Some table ->
  assoc name table = Some cfg ->
  In (compileRoute self sec method name cfg) (sectionRoutes self sec).
Proof.
  unfold sectionRoutes. generalize (section_of self sec) as l.
  induction l as [|[m t] l IH]; simpl; [done|].
  intros Hm Hn. apply in_or_app.
  destruct (String.eqb_spec method m) as [->|Hne].
  - left. injection Hm as ->. clear IH.
    induction table as [|[n c] table IH]; simpl in *; [done|].
    destruct (String.eqb_spec name n) as [->|Hne].
    + injection Hn as ->. by left.
    + right. by apply IH.
  - right. by apply IH.
Qed.

Lemma compileRoute_method_url self sec method name cfg :
  c_method (compileRoute self sec method name cfg) = method
  /\ c_url (compileRoute self sec method name cfg) = getRouteUrl self name.
Proof.
  unfold compileRoute. by destruct cfg as [[]|b []].
Qed.

(** A REST shorthand stored under [':_id'] is compiled with the API
    section, at the wildcard URL. *)
Lemma wildcard_compiled self method r :
  apiRoute self method ":_id" = Some (CRoute r) ->
  exists a, In a (sectionRoutes self "apiRoutes")
            /\ c_method a = method
            /\ c_url a = action self +:+ "/:_id".
Proof.
  unfold apiRoute. intros H.
  destruct (assoc method (apiRoutes self)) as [table|] eqn:Ht; [|done].
  exists (compileRoute self "apiRoutes" method ":_id" (CRoute r)).
  split; [by apply (sectionRoutes_contains _ _ _ table)|].
  apply compileRoute_method_url.
Qed.

(** C3. The table after compilation is the table before it followed by
    the entries of [routes], then those of [renderRoutes], then those of
    [apiRoutes], the REST shorthand having been expanded into the last:
    every entry of the first two sections stands before every entry of
    the third, whose entries include the [':_id'] wildcards of the
    shorthand. *)
Theorem compileAllRoutes_order self :
  let expanded := compileRestApiRoutesToApiRoutes self in
  let plain := sectionRoutes expanded "routes"
               ++ sectionRoutes expanded "renderRoutes" in
  let api := sectionRoutes expanded "apiRoutes" in
  let table := _routes (compileAllRoutes self) in
  table = _routes self ++ plain ++ api
  /\ plain = sectionRoutes self "routes" ++ sectionRoutes self "renderRoutes"
  /\ (forall (i j : nat) r a,
        plain !! i = Some r -> api !! j = Some a ->
        table !! (List.length (_routes self) + i)%nat = Some r
        /\ table !! (List.length (_routes self) + List.length plain + j)%nat
           = Some a
        /\ (List.length (_routes self) + i
            < List.length (_routes self) + List.length plain + j)%nat)
  /\ (forall method r,
        In (method, r)
           [("get", rest_getOne (restApiRoutes self));
            ("put", rest_put (restApiRoutes self));
            ("patch", rest_patch (restApiRoutes self));
            ("delete", rest_delete (restApiRoutes self))] ->
        route_truthy r = true ->
        exists a, In a api /\ c_method a = method
                  /\ c_url a = action self +:+ "/:_id").
Proof.
  cbv zeta. destruct (compileRest_keeps self) as (Ha & Hr & Hrr & Ht).
  set (expanded := compileRestApiRoutesToApiRoutes self) in *.
  assert (Htable : _routes (compileAllRoutes self)
                   = _routes self
                     ++ (sectionRoutes expanded "routes"
                         ++ sectionRoutes expanded "renderRoutes")
                     ++ sectionRoutes expanded "apiRoutes").
  { unfold compileAllRoutes, compileSectionRoutes. fold expanded. simpl.
    rewrite Ht, <- !app_assoc. repeat f_equal; by apply sectionRoutes_ext. }
  repeat apply conj.
  - exact Htable.
  - f_equal; apply sectionRoutes_ext; try done;
      unfold section_of; simpl; done.
  - intros i j r a Hi Hj. rewrite Htable.
    pose proof (lookup_lt_Some _ _ _ Hi) as Hlt.
    repeat apply conj.
    + rewrite lookup_app_r by lia. rewrite lookup_app_l by lia.
      rewrite <- Hi. f_equal. lia.
    + rewrite lookup_app_r by lia. rewrite lookup_app_r by lia.
      rewrite <- Hj. f_equal. lia.
    + lia.
  - intros method r Hin Hr'.
    destruct (rest_slots self) as (_ & _ & Hget & Hput & Hpatch & Hdel).
    fold expanded in Hget, Hput, Hpatch, Hdel. rewrite <- Ha.
    simpl in Hin.
    destruct Hin as [[= <- <-]|[[= <- <-]|[[= <- <-]|[[= <- <-]|[]]]]];
      rewrite Hr' in *; by eapply wildcard_compiled.
Qed.

(** *** The API wrapper *)

(** C6. When the wrapped handler resolves, the wrapper sets status 200
    and sends the value it resolved with as it is, after setting
    [Cache-Control: no-store] if the method is GET and the request has a
    user; when the handler throws, what the wrapper does is what
    [routeSendError] does with the request and the error. *)
Theorem routeWrappers_apiRoutes_spec name fn req arg w w1 :
  (forall result,
     call fn req VUndefined w = (Ok result, w1) ->
     let cache :=
       if (String.eqb (req_method req) "GET" && truthy (req_user req))%bool
       then [EHeader "Cache-Control" "no-store"] else [] in
     routeWrappers_apiRoutes name fn req arg w
     = (Ok VUndefined,
        mkWorld (VNum 200)
          (trace w1 ++ cache ++ [EStatus (VNum 200); ESend result])))
  /\ (forall err,
        call fn req VUndefined w = (Throw err, w1) ->
        routeWrappers_apiRoutes name fn req arg w
        = (result_bind (fst (routeSendError (Some req) err w1))
             (fun _ => Ok VUndefined),
           snd (routeSendError (Some req) err w1))).
Proof.
  split.
  - intros result Hcall. unfold routeWrappers_apiRoutes, try_catch, bind.
    rewrite Hcall.
    destruct (String.eqb (req_method req) "GET" && truthy (req_user req))%bool;
      unfold perform, res_header, res_status, res_send, emit, ret; simpl;
      by rewrite <- ?app_assoc.
  - intros err Hcall. unfold routeWrappers_apiRoutes, try_catch, bind.
    rewrite Hcall. unfold ret.
    by destruct (routeSendError (Some req) err w1) as [[[]|e] w2].
Qed.

(** *** Cache control *)

(** On a number, [at_least] is the order of the integers. *)
Lemma at_least_number (c n : Z) : at_least (VNum c) n = Z.leb n c.
Proof.
  unfold at_least. simpl. apply eq_iff_eq_true.
  rewrite Qle_bool_iff, Z.leb_le. unfold Qle. simpl. lia.
Qed.

(** C8. A request with a user, or a response whose status is 400 or
    more, is not safe to cache; any other is safe exactly when every
    entry of the session is [cookie], or is [flash] or [passport] with an
    empty value; a session that holds [cookie] alone is safe.  The
    status is compared as [>=] compares: a status [c] that is a number
    is 400 or more when [400 <= c]. *)
Theorem isSafeToCache_spec req w :
  req_res req = true ->
  (truthy (req_user req) = true -> isSafeToCache req w = (Ok false, w))
  /\ (at_least (statusCode w) 400 = true ->
      isSafeToCache req w = (Ok false, w))
  /\ (forall c, statusCode w = VNum c -> 400 <= c ->
      isSafeToCache req w = (Ok false, w))
  /\ (truthy (req_user req) = false -> at_least (statusCode w) 400 = false ->
      forall es, req_session req = VObj es ->
      exists safe,
        isSafeToCache req w = (Ok safe, w)
        /\ (safe = true <->
            forall key val, In (key, val) es ->
              key = "cookie"
              \/ ((key = "flash" \/ key = "passport")
                  /\ isEmpty val = true)))
  /\ (truthy (req_user req) = false -> at_least (statusCode w) 400 = false ->
      forall c, req_session req = VObj [("cookie", c)] ->
      isSafeToCache req w = (Ok true, w)).
Proof.
  intros Hres. unfold isSafeToCache, the_res, bind, ret. rewrite Hres.
  repeat apply conj.
  - by intros ->.
  - intros Hge.
    destruct (truthy (req_user req)); [done|]. simpl. by rewrite Hge.
  - intros c Hc Hge. apply Z.leb_le in Hge.
    destruct (truthy (req_user req)); [done|]. simpl.
    by rewrite Hc, at_least_number, Hge.
  - intros -> Hlt es ->. simpl. rewrite Hlt. simpl.
    eexists. split; [done|]. rewrite forallb_forall. split.
    + intros H key val Hin. specialize (H _ Hin).
      unfold session_entry_ok in H. simpl in H.
      rewrite orb_true_iff, andb_true_iff, orb_true_iff in H.
      rewrite !String.eqb_eq in H. tauto.
    + intros H [key val] Hin. specialize (H _ _ Hin).
      unfold session_entry_ok. simpl.
      rewrite orb_true_iff, andb_true_iff, orb_true_iff.
      rewrite !String.eqb_eq. tauto.
  - intros -> Hlt c ->. simpl. by rewrite Hlt.
Qed.

(** C10. Without a document, [generateETagParts] takes [req.data.piece]
    and failing that [req.data.page]; it returns [null] exactly when the
    document it works on is missing or has no [cacheInvalidatedAt], and
    otherwise the release id of the assets followed by the time of
    [cacheInvalidatedAt] in milliseconds, printed in decimal. *)
Theorem generateETagParts_spec req doc :
  truthy doc = true \/ nullish (req_data req) = false ->
  let context := etag_context req doc in
  let stamp := prop context "cacheInvalidatedAt" in
  (truthy doc = true -> context = doc)
  /\ (truthy doc = false ->
      context = js_or (prop (req_data req) "piece")
                  (prop (req_data req) "page"))
  /\ (generateETagParts req doc = Ok None <->
      truthy context = false \/ truthy stamp = false)
  /\ (truthy context = true -> truthy stamp = true ->
      generateETagParts req doc
      = Ok (Some [asset_getReleaseId apos;
                  number_to_string (Date_getTime apos stamp)]))
  /\ (forall t, Date_getTime apos stamp = Some t ->
        number_to_string (Date_getTime apos stamp) = pretty t).
Proof.
  intros Hdata. cbv zeta.
  assert (Hgen : generateETagParts req doc
                 = Ok (if (negb (truthy (etag_context req doc))
                           || negb (truthy (prop (etag_context req doc)
                                              "cacheInvalidatedAt")))%bool
                       then None
                       else Some [asset_getReleaseId apos;
                                  number_to_string
                                    (Date_getTime apos
                                       (prop (etag_context req doc)
                                          "cacheInvalidatedAt"))])).
  { unfold generateETagParts, etag_context, member.
    destruct (truthy doc) eqn:Hdoc; simpl.
    { by destruct (_ || _)%bool. }
    destruct Hdata as [?| ->]; [done|]. simpl.
    destruct (truthy (prop (req_data req) "piece")) eqn:Hp; simpl;
      by destruct (_ || _)%bool. }
  split; [|split; [|split; [|split]]].
  - unfold etag_context. by intros ->.
  - unfold etag_context, js_or. by intros ->.
  - rewrite Hgen.
    destruct (truthy (etag_context req doc));
      destruct (truthy (prop (etag_context req doc) "cacheInvalidatedAt"));
      simpl; split; intros H; try done; try (by left); try (by right);
      by destruct H.
  - intros Hc Hs. by rewrite Hgen, Hc, Hs.
  - by intros t ->.
Qed.

Lemma concat_split (sep : ascii) (s : string) :
  String.concat (String sep EmptyString) (split sep s) = s.
Proof.
  induction s as [|c s IH]; [done|]. simpl.
  destruct (Ascii.eqb_spec c sep) as [->|Hne].
  - simpl. destruct (split sep s) as [|h t] eqn:E.
    + by destruct s; simpl in E; [|destruct (Ascii.eqb _ _), (split _ _)].
    + by rewrite IH.
  - destruct (split sep s) as [|h t] eqn:E.
    + by destruct s; simpl in E; [|destruct (Ascii.eqb _ _), (split _ _)].
    + simpl in *. destruct t; simpl in *; by rewrite <- IH.
Qed.

Lemma age_exceeds_decimal now c maxAge :
  age_exceeds (etag_age now (Some (inject_Z c))) maxAge
  = negb (Z.leb (now - c) (1000 * maxAge)).
Proof.
  unfold age_exceeds, etag_age. f_equal.
  apply eq_iff_eq_true. rewrite Qle_bool_iff, Z.leb_le.
  unfold Qle. simpl. lia.
Qed.

Lemma same_string_Some (a : option string) (b : string) :
  same_string a (Some b) = true <-> a = Some b.
Proof.
  destruct a as [x|]; simpl; [|done]. rewrite String.eqb_eq.
  split; [by intros -> | by intros [= ->]].
Qed.

(** C9, as amended.  [checkETag] reports a miss, and sets no header, when
    no ETag parts can be generated or the request is not safe to cache.
    Otherwise it splits [If-None-Match] at the colons; for a header whose
    third part is a decimal number [clientSetAt], it reports a hit and
    sets the header it received again exactly when the first two parts
    are the current release id and timestamp and the age in seconds,
    [(now - clientSetAt) / 1000], is at most [maxAge]; if not, and also
    when there is no header, it reports a miss and sets
    [releaseId:timestamp:now]. *)
Theorem checkETag_spec req doc maxAge w :
  req_res req = true ->
  (generateETagParts req doc = Ok None ->
   checkETag req doc maxAge w = (Ok false, w))
  /\ (forall parts,
        generateETagParts req doc = Ok (Some parts) ->
        isSafeToCache req w = (Ok false, w) ->
        checkETag req doc maxAge w = (Ok false, w))
  /\ (forall releaseId timestamp,
        generateETagParts req doc = Ok (Some [releaseId; timestamp]) ->
        isSafeToCache req w = (Ok true, w) ->
        let now := Date_now apos in
        let fresh :=
          res_header "ETag"
            (releaseId +:+ ":" +:+ timestamp +:+ ":" +:+ pretty now) w in
        (forall h third clientSetAt,
           assoc "if-none-match" (req_headers req) = Some h -> h <> "" ->
           split ":" h !! 2%nat = Some third ->
           parse_decimal third = Some clientSetAt ->
           exists hit : bool,
             checkETag req doc maxAge w
             = (Ok hit, if hit then res_header "ETag" h w else fresh)
             /\ (hit = true <->
                 split ":" h !! 0%nat = Some releaseId
                 /\ split ":" h !! 1%nat = Some timestamp
                 /\ now - clientSetAt <= 1000 * maxAge))
        /\ (assoc "if-none-match" (req_headers req) = None
            \/ assoc "if-none-match" (req_headers req) = Some "" ->
            checkETag req doc maxAge w = (Ok false, fresh))).
Proof.
  intros Hres. split; [|split].
  - intros Hgen. unfold checkETag, bind, lift. by rewrite Hgen.
  - intros parts Hgen Hsafe. unfold checkETag, bind, lift.
    by rewrite Hgen, Hsafe.
  - intros releaseId timestamp Hgen Hsafe. cbv zeta. split.
    + intros h third clientSetAt Hh Hne Hp2 Hc.
      unfold checkETag, bind at 1, lift. rewrite Hgen.
      unfold bind at 1. rewrite Hsafe. cbn [negb].
      rewrite Hh. apply String.eqb_neq in Hne. rewrite Hne.
      rewrite Hp2. unfold to_number. rewrite Hc, age_exceeds_decimal.
      change ([releaseId; timestamp] !! 0%nat) with (Some releaseId).
      change ([releaseId; timestamp] !! 1%nat) with (Some timestamp).
      pose proof (same_string_Some (split ":" h !! 0%nat) releaseId) as H0.
      pose proof (same_string_Some (split ":" h !! 1%nat) timestamp) as H1.
      pose proof (Z.leb_le (Date_now apos - clientSetAt) (1000 * maxAge))
        as H2.
      unfold setETag, the_res, bind, perform, ret. rewrite Hres.
      rewrite concat_split.
      destruct (same_string (split ":" h !! 0%nat) (Some releaseId));
        destruct (same_string (split ":" h !! 1%nat) (Some timestamp));
        destruct (Z.leb (Date_now apos - clientSetAt) (1000 * maxAge));
        simpl;
        first [ exists true; split; [reflexivity|]
              | exists false; split; [reflexivity|] ];
        intuition congruence.
    + intros Hh. unfold checkETag, bind at 1, lift. rewrite Hgen.
      unfold bind at 1. rewrite Hsafe. cbn [negb].
      assert (match assoc "if-none-match" (req_headers req) with
              | Some h => if String.eqb h "" then [] else split ":" h
              | None => []
              end = []) as ->.
      { by destruct Hh as [-> | ->]. }
      unfold setETag, the_res, bind, perform, ret. rewrite Hres. done.
Qed.

(** *** More on sending an error *)

Lemma getResponse_plain err :
  nullish err = false -> has_sub_errors (first_response err) = false ->
  getResponse err = Ok (first_response err).
Proof.
  intros Hnull Hsub. apply getResponse_intro; [done|]. by rewrite Hsub.
Qed.

(** X1. With a logger that throws neither [null] nor [undefined], an
    error named in the taxonomy is answered with the mapped status and a
    body made of its own name and message and its own data, or [{}] for
    want of any. *)
Theorem routeSendError_known req err n c w :
  logger_safe ->
  req_res req = true ->
  prop err "name" = VStr n -> n <> "" ->
  http_errors apos !! n = Some c -> c <> 0 ->
  n <> "invalid" \/ isArray (prop (prop err "data") "errors") = false ->
  exists w',
    routeSendError (Some req) err w = (Ok tt, w')
    /\ statusCode w' = VNum c
    /\ sent w' = sent w ++ [VObj [("name", VStr n);
                                  ("data", js_or (prop err "data") (VObj []));
                                  ("message", prop err "message")]].
Proof.
  intros Hsafe Hres Hname Hn Hc Hc0 Hplain.
  assert (Hnull : nullish err = false) by (by destruct err).
  assert (Harr : isArray err = false) by (by destruct err).
  assert (Hk : known_code err = Some (VNum c)).
  { unfold known_code. rewrite Hname. simpl.
    assert (truthy err = true) as -> by (by destruct err).
    apply String.eqb_neq in Hn. rewrite Hn. simpl.
    rewrite (http_errors_at_own n c Hc). simpl.
    apply Z.eqb_neq in Hc0. by rewrite Hc0. }
  assert (Hfirst : first_response err
                   = mkResponse (VStr n) (js_or (prop err "data") (VObj []))
                       (VNum c) (prop err "path") util_info
                       (prop err "message")).
  { unfold first_response. by rewrite Hk, Hname. }
  assert (Hresp : getResponse err = Ok (first_response err)).
  { apply getResponse_plain; [done|].
    rewrite Hfirst. unfold has_sub_errors. simpl.
    destruct (js_or_errors (prop err "data")) as [-> _].
    destruct Hplain as [Hne | ->]; [|by rewrite andb_false_r].
    apply String.eqb_neq in Hne. by rewrite Hne. }
  destruct (routeSendError_single req err _ w Hsafe Hres Harr Hresp)
    as (evs & Hsend & _ & Hevs).
  eexists. split; [exact Hsend|]. rewrite Hfirst. simpl. split; [done|].
  destruct w as [c0 t]. by rewrite sent_after_log.
Qed.

(** A member of [Object.prototype] is never called [invalid], nor by
    the empty name. *)
Lemma Object_prototype_name name :
  truthy (Object_prototype name) = true ->
  String.eqb name "" = false /\ String.eqb name "invalid" = false.
Proof.
  intros H. split.
  - destruct (String.eqb_spec name "") as [->|]; done.
  - destruct (String.eqb_spec name "invalid") as [->|]; done.
Qed.

(** C1, at the input where it fails.  The taxonomy is a plain object,
    so under a name it does not own, such as [constructor], it yields a
    member of [Object.prototype]; an error of that name passes for a
    known one: the status is set to that member, and the body sent
    carries the error's own name, data and message where the claim has
    the generic ones. *)
Theorem routeSendError_inherited_name req err name w :
  logger_safe ->
  req_res req = true ->
  prop err "name" = VStr name ->
  http_errors apos !! name = None ->
  truthy (Object_prototype name) = true ->
  exists w',
    routeSendError (Some req) err w = (Ok tt, w')
    /\ statusCode w' = Object_prototype name
    /\ sent w' = sent w ++ [VObj [("name", VStr name);
                                  ("data", js_or (prop err "data") (VObj []));
                                  ("message", prop err "message")]]
    /\ VObj [("name", VStr name);
             ("data", js_or (prop err "data") (VObj []));
             ("message", prop err "message")]
       <> VObj [("name", VStr "error"); ("data", VObj []);
                ("message", VStr "An error occurred.")].
Proof.
  intros Hsafe Hres Hname Hown Hmember.
  destruct (Object_prototype_name name Hmember) as [Hne Hinv].
  assert (Hnull : nullish err = false) by (by destruct err).
  assert (Harr : isArray err = false) by (by destruct err).
  assert (Hk : known_code err = Some (Object_prototype name)).
  { unfold known_code. rewrite Hname. simpl.
    assert (truthy err = true) as -> by (by destruct err).
    rewrite Hne. simpl. unfold http_errors_at. by rewrite Hown, Hmember. }
  assert (Hfirst : first_response err
                   = mkResponse (VStr name)
                       (js_or (prop err "data") (VObj []))
                       (Object_prototype name) (prop err "path") util_info
                       (prop err "message")).
  { unfold first_response. by rewrite Hk, Hname. }
  assert (Hresp : getResponse err = Ok (first_response err)).
  { apply getResponse_plain; [done|].
    rewrite Hfirst. unfold has_sub_errors. simpl. by rewrite Hinv. }
  destruct (routeSendError_single req err _ w Hsafe Hres Harr Hresp)
    as (evs & Hsend & _ & Hevs).
  eexists. split; [exact Hsend|]. rewrite Hfirst. simpl.
  split; [done|]. split.
  - destruct w as [c0 t]. by rewrite sent_after_log.
  - intros [= -> _ _]. done.
Qed.

Lemma sent_emit_log key msg fields w :
  sent (emit (ELogError key msg fields) w) = sent w.
Proof.
  unfold sent, emit. simpl. rewrite omap_app. simpl. apply app_nil_r.
Qed.

(** X2. A well-formed error that is not an array is answered whenever
    the logger throws neither [null] nor [undefined]: [routeSendError]
    returns, and what it adds to the trace is log and console events,
    then the status, then one body made of [name], [data] and
    [message].  It throws on such an error only when the logger has
    thrown [null] or [undefined], and then the status is untouched and
    nothing is sent. *)
Theorem routeSendError_answers req err w :
  req_res req = true -> well_formed err -> isArray err = false ->
  exists response,
    getResponse err = Ok response
    /\ (logger_safe ->
        exists evs,
          routeSendError (Some req) err w
          = (Ok tt,
             mkWorld (resp_code response)
               (trace w ++ evs ++
                [EStatus (resp_code response);
                 ESend (VObj [("name", resp_name response);
                              ("data", resp_data response);
                              ("message", resp_message response)])]))
          /\ Forall is_log_event evs)
    /\ (forall e w',
          routeSendError (Some req) err w = (Throw e, w') ->
          (exists key msg fields thrown,
             log_failure apos key msg fields = Some thrown
             /\ nullish thrown = true)
          /\ statusCode w' = statusCode w
          /\ sent w' = sent w).
Proof.
  intros Hres Hwf Harr.
  destruct (getResponse_total err Hwf) as [response Hresp].
  exists response. split; [done|]. split.
  - intros Hsafe.
    destruct (routeSendError_single req err response w Hsafe Hres Harr Hresp)
      as (evs & Hsend & _ & Hevs).
    by exists evs.
  - intros e w'.
    rewrite (routeSendError_after_log req err response w Hres Harr Hresp).
    rewrite logError_trace.
    destruct (stack_lines (prop err "stack")) as [stack|e0] eqn:Hstack.
    + cbv zeta.
      match goal with
      | |- context [log_failure apos ?k ?m ?f] =>
          destruct (log_failure apos k m f) as [thrown|] eqn:Hlog
      end; [|done].
      destruct (nullish thrown) eqn:Hnull.
      * rewrite logError_catch_throws by done. intros [= <- <-].
        split; [eauto 10|]. split; [done|]. apply sent_emit_log.
      * by rewrite logError_catch_eq.
    + by rewrite logError_catch_eq by (by eapply stack_lines_throws).
Qed.

(** X4. When the logger throws anything but [null] or [undefined], what
    it threw goes to the console, an object under a message that starts
    with [Structured logging error: ] and a primitive as it is, and the
    status and the body are sent all the same; so they are when the
    stack of the error is not a string and cannot be split.  When the
    logger throws [null] or [undefined], [routeSendError] throws before
    it has set the status or sent anything. *)
Theorem routeSendError_log_fallback req err response w :
  req_res req = true -> isArray err = false ->
  getResponse err = Ok response ->
  (forall stack key msg fields e,
     stack_lines (prop err "stack") = Ok stack ->
     key = "api-error" +:+ (if is_num (resp_code response) 500 then ""
                            else "-" +:+ to_string (resp_name response)) ->
     msg = (if is_num (resp_code response) 500 then prop err "message"
            else resp_message response) ->
     fields = VObj [("name", resp_name response);
                    ("status", resp_code response);
                    ("stack", stack);
                    ("cause", prop err "cause");
                    ("errorPath", resp_path response);
                    ("data", resp_data response)] ->
     log_failure apos key msg fields = Some e ->
     if nullish e
     then routeSendError (Some req) err w
          = (Throw (TypeError ("Cannot read properties of "
                               +:+ to_string e)),
             mkWorld (statusCode w) (trace w ++ [ELogError key msg fields]))
     else routeSendError (Some req) err w
          = (Ok tt,
             mkWorld (resp_code response)
               (trace w ++
                [ELogError key msg fields;
                 console_event e;
                 EStatus (resp_code response);
                 ESend (error_body response)])))
  /\ (forall fs,
        console_event (VObj fs)
        = EConsoleError
            (VObj (assoc_set "message"
                     (VStr ("Structured logging error: "
                            +:+ to_string (prop (VObj fs) "message"))) fs)))
  /\ (forall e,
        match e with
        | VBool _ | VNum _ | VStr _ => console_event e = EConsoleError e
        | _ => True
        end)
  /\ (truthy (prop err "stack") = true ->
      (forall s, prop err "stack" <> VStr s) ->
      routeSendError (Some req) err w
      = (Ok tt,
         mkWorld (resp_code response)
           (trace w ++
            [EConsoleError
               (VObj [("name", VStr "TypeError");
                      ("message",
                       VStr "Structured logging error: split is not a function")]);
             EStatus (resp_code response);
             ESend (error_body response)]))).
Proof.
  intros Hres Harr Hresp.
  rewrite (routeSendError_after_log req err response w Hres Harr Hresp).
  rewrite logError_trace. repeat apply conj.
  - intros stack key msg fields e Hstack -> -> -> Hfail.
    rewrite Hstack. cbv zeta. rewrite Hfail.
    destruct (nullish e) eqn:Hnull.
    + by rewrite logError_catch_throws.
    + rewrite logError_catch_eq by done. unfold emit. simpl.
      by rewrite <- !app_assoc.
  - done.
  - by intros [].
  - intros Ht Hs. unfold stack_lines, js_or. rewrite Ht.
    destruct (prop err "stack") as [| |b|z|s|l|fs|n]; try done;
      try (by destruct (Hs s));
      rewrite logError_catch_eq by done; unfold emit; simpl;
      by rewrite <- !app_assoc.
Qed.

(** X5. What [getResponse] returns is normalised at every depth: its code
    is what the taxonomy object holds under its name, which is truthy,
    or it is the generic error, and the members of [data.errors] of an
    [invalid] response are normalised entries themselves. *)
Theorem getResponse_normalised err r :
  getResponse err = Ok r -> normalised (sub_entry r).
Proof.
  remember (depth err) as n eqn:Hn. revert err Hn r.
  induction n as [n IH] using lt_wf_ind. intros err -> r Hr.
  apply getResponse_inv in Hr as [Hnull Hr].
  destruct (known_code err) as [c|] eqn:Hk.
  - destruct (known_code_inv err c Hk) as (Ht & Hc & Hc0).
    set (d := js_or (prop err "data") (VObj [])).
    assert (Hf : first_response err
                 = mkResponse (prop err "name") d c (prop err "path")
                     util_info (prop err "message")).
    { unfold first_response. by rewrite Hk. }
    assert (Hdepth : forall x, In x (items_of (prop d "errors")) ->
                               (depth x < depth err)%nat).
    { intros x Hx. apply (first_items_depth err). by rewrite Hf. }
    rewrite Hf in Hr. unfold has_sub_errors in Hr.
    cbn [resp_name resp_data] in Hr.
    destruct (is_str (prop err "name") "invalid") eqn:Hinv;
      destruct (isArray (prop d "errors")) eqn:Harr;
      cbn [andb] in Hr.
    2-4: subst r; unfold sub_entry; cbn [resp_name resp_code resp_message
                                         resp_data resp_path];
      apply normalised_known; try done; intros Hi;
      first [ congruence
            | destruct (prop d "errors"); try done; constructor ].
    destruct Hr as (rs & Hrs & ->). unfold sub_entry, with_data.
    cbn [resp_name resp_code resp_message resp_data resp_path].
    apply normalised_known; try done. intros _.
    assert (forall l, prop (set_prop d "errors" (VArr l)) "errors" = VArr l)
      as ->.
    { intros l. destruct d as [| | | | | |ds|n]; try done. simpl.
      by rewrite assoc_set_same. }
    cbn [items_of]. apply Forall_forall. intros e He.
    apply list_elem_of_In, in_map_iff in He as (r' & <- & Hr').
    assert (exists x, In x (items_of (prop d "errors"))
                      /\ getResponse x = Ok r') as (x & Hx & Hxr).
    { clear -Hrs Hr'. revert rs Hrs Hr'.
      induction (items_of (prop d "errors")) as [|y l IHl];
        simpl; intros rs.
      - by intros [= <-].
      - destruct (getResponse y) as [ry|] eqn:Ey; simpl; [|done].
        destruct (mapM getResponse l) as [rs0|]; simpl; [|done].
        intros [= <-]. intros [<-|Hin]; [eauto|].
        destruct (IHl rs0 eq_refl Hin) as (x & ? & ?). eauto. }
    by apply (IH (depth x) (Hdepth x Hx) x eq_refl).
  - assert (first_response err
            = mkResponse (VStr "error") (VObj []) (VNum 500)
                (prop err "path") util_error (VStr "An error occurred."))
      as Hf.
    { unfold first_response. by rewrite Hk. }
    rewrite Hf in Hr. simpl in Hr. subst r. apply normalised_unknown.
Qed.

(** X6. With a taxonomy that does not map [error], normalising an entry
    that was built from a response gives that response again: the second
    pass over the errors of an array changes nothing. *)
Theorem getResponse_entry_fixed err r :
  http_errors apos !! "error" = None ->
  getResponse err = Ok r ->
  getResponse (sub_entry r) = Ok r
  /\ getResponse (array_entry err r) = Ok r.
Proof.
  intros Herror Hr.
  assert (Hpath : resp_path r = prop err "path").
  { apply getResponse_inv in Hr as [_ Hr].
    destruct (has_sub_errors (first_response err));
      [destruct Hr as (? & _ & ->) | subst r];
      unfold first_response; by destruct (known_code err). }
  split; apply (getResponse_idem err r); try done;
    unfold reads_as, sub_entry, array_entry; simpl; rewrite ?Hpath; eauto 10.
Qed.

(** X7. When an API handler throws an error under whose name the
    taxonomy object holds nothing truthy, neither of its own nor
    inherited, and the logger throws neither [null] nor [undefined], the
    client gets status 500 and the generic body; the wrapper sets no
    header on that path, not even [Cache-Control] for a logged-in GET. *)
Theorem routeWrappers_apiRoutes_unknown_error name fn req arg w w1 err :
  logger_safe ->
  req_res req = true ->
  call fn req VUndefined w = (Throw err, w1) ->
  nullish err = false -> isArray err = false ->
  truthy (http_errors_at (to_string (prop err "name"))) = false ->
  exists w',
    routeWrappers_apiRoutes name fn req arg w = (Ok VUndefined, w')
    /\ statusCode w' = VNum 500
    /\ sent w' = sent w1 ++ [VObj [("name", VStr "error");
                                   ("data", VObj []);
                                   ("message", VStr "An error occurred.")]]
    /\ (forall k v, In (EHeader k v) (trace w') -> In (EHeader k v) (trace w1)).
Proof.
  intros Hsafe Hres Hcall Hnull Harr Hname.
  pose proof (getResponse_unknown err Hnull (known_code_unmapped err Hname))
    as Hresp.
  destruct (routeSendError_single req err _ w1 Hsafe Hres Harr Hresp)
    as (evs & Hsend & _ & Hevs).
  eexists. split; [|split; [|split]].
  - unfold routeWrappers_apiRoutes, try_catch, bind. rewrite Hcall, Hsend.
    reflexivity.
  - done.
  - destruct w1 as [c t]. simpl. by rewrite sent_after_log.
  - intros k v. simpl. rewrite !in_app_iff. intros [H|[H|H]]; [done| |].
    + rewrite Forall_forall in Hevs.
      apply list_elem_of_In, Hevs in H. done.
    + simpl in H. by destruct H as [H|[H|[]]].
Qed.

(** *** More on route compilation *)

(** X9. An array declaration compiles to a chain of the same length in which
    every middleware entry is the declared one; in a section that has a
    wrapper the last entry is the wrapped route function, in the
    [routes] section the chain is the declared array.  An object with
    extra configuration compiles to the same chain as the bare array. *)
Theorem compileRoute_keeps_middleware self section method name config l :
  config = CRoute (RArr l) \/ (exists before, config = CObj before (RArr l)) ->
  exists chain,
    c_route (compileRoute self section method name config) = HChain chain
    /\ List.length chain = List.length l
    /\ (forall i : nat, (S i < List.length l)%nat -> chain !! i = l !! i)
    /\ match routeWrappers section with
       | Some wrapper =>
           forall fn, last l = Some fn ->
                      last chain = Some (RFun (wrapper name fn))
       | None => chain = l
       end.
Proof.
  intros Hconfig.
  assert (Hroute : c_route (compileRoute self section method name config)
                   = HChain (match routeWrappers section with
                             | Some wrapper =>
                                 <[Nat.pred (List.length l) :=
                                     RFun (wrapper name
                                             (default RUndef (last l)))]> l
                             | None => l
                             end)).
  { by destruct Hconfig as [-> | [before ->]]. }
  eexists. split; [exact Hroute|].
  destruct (routeWrappers section) as [wrapper|]; [|done].
  split; [apply length_insert|]. split.
  - intros i Hi. apply list_lookup_insert_ne. lia.
  - intros fn Hfn. rewrite Hfn. simpl.
    apply last_Some in Hfn as [l' ->].
    rewrite length_app. simpl.
    replace (Nat.pred (List.length l' + 1)) with (List.length l' + 0)%nat
      by lia.
    rewrite insert_app_r. simpl. apply last_snoc.
Qed.

(** X10. [wrapId] never yields an undeclared route.  An array keeps its
    length, except that an empty one gains an entry; that entry, which
    wraps nothing, throws whenever it is called. *)
Theorem wrapId_never_undefined :
  (forall route, route_truthy (wrapId route) = true)
  /\ (forall l, exists l',
        wrapId (RArr l) = RArr l'
        /\ List.length l' = Nat.max 1 (List.length l))
  /\ (forall req arg w, exists h e,
        wrapId (RArr []) = RArr [h]
        /\ call h req arg w = (Throw e, w)).
Proof.
  split; [|split].
  - by intros [].
  - intros l. rewrite wrapId_array. eexists. split; [done|].
    rewrite length_app. simpl.
    destruct l as [|x l]; [done|].
    assert (Hlast : x :: l <> []) by done.
    apply (app_removelast_last RUndef) in Hlast.
    apply (f_equal (@List.length routeval)) in Hlast.
    rewrite length_app in Hlast. simpl in *. lia.
  - intros req arg w.
    destruct (nullish (req_params req)) eqn:E;
      eexists _, _; (split; [done|]);
      simpl; unfold bind, lift, member; rewrite E; reflexivity.
Qed.

Lemma compileRest_keeps_rest self :
  restApiRoutes (compileRestApiRoutesToApiRoutes self) = restApiRoutes self
  /\ meta_name (compileRestApiRoutesToApiRoutes self) = meta_name self.
Proof.
  unfold compileRestApiRoutesToApiRoutes, when.
  destruct (route_truthy (rest_getAll (restApiRoutes self)));
    destruct (route_truthy (rest_getOne (restApiRoutes self)));
    destruct (route_truthy (rest_delete (restApiRoutes self)));
    destruct (route_truthy (rest_patch (restApiRoutes self)));
    destruct (route_truthy (rest_put (restApiRoutes self)));
    destruct (route_truthy (rest_post (restApiRoutes self))); done.
Qed.

(** X11. Expanding the REST shorthand touches the six REST slots of
    [apiRoutes] and nothing else: every other API route, the other
    sections, the shorthand itself and the route table stay as they
    are. *)
Theorem compileRest_leaves_the_rest self :
  let self' := compileRestApiRoutesToApiRoutes self in
  routes self' = routes self
  /\ renderRoutes self' = renderRoutes self
  /\ restApiRoutes self' = restApiRoutes self
  /\ _routes self' = _routes self
  /\ action self' = action self
  /\ forall method name,
       ~ In (method, name)
           [("get", ""); ("get", ":_id"); ("delete", ":_id");
            ("patch", ":_id"); ("put", ":_id"); ("post", "")] ->
       apiRoute self' method name = apiRoute self method name.
Proof.
  cbv zeta.
  destruct (compileRest_keeps self) as (Ha & Hr & Hrr & Ht).
  destruct (compileRest_keeps_rest self) as (Hrest & _).
  repeat apply conj; try done.
  intros method name Hout. unfold compileRestApiRoutesToApiRoutes.
  assert (Hne : forall m n, In (m, n)
                  [("get", ""); ("get", ":_id"); ("delete", ":_id");
                   ("patch", ":_id"); ("put", ":_id"); ("post", "")] ->
                m <> method \/ n <> name).
  { intros m n Hin.
    destruct (String.eqb_spec m method) as [->|]; [|by left].
    destruct (String.eqb_spec n name) as [->|]; [|by right]. done. }
  repeat (rewrite apiRoute_when_other by (apply Hne; simpl; tauto)). done.
Qed.

Lemma assoc_set_id {A : Type} (k : string) (v : A) l :
  assoc k l = Some v -> assoc_set k v l = l.
Proof.
  induction l as [|[k' v'] l IH]; simpl; [done|].
  destruct (String.eqb_spec k k') as [->|Hne].
  - by intros [= ->].
  - intros H. by rewrite IH.
Qed.

Lemma setApiRoute_id method name r self :
  apiRoute self method name = Some (CRoute r) ->
  setApiRoute method name r self = self.
Proof.
  unfold apiRoute, setApiRoute. destruct self as [n a rs rrs api rest t].
  simpl. destruct (assoc method api) as [table|] eqn:Ht; [|done].
  intros Hn. simpl. rewrite (assoc_set_id name _ table Hn).
  by rewrite (assoc_set_id method table api Ht).
Qed.

Lemma when_id (b : bool) method name r self :
  (b = true -> apiRoute self method name = Some (CRoute r)) ->
  when b (setApiRoute method name r) self = self.
Proof. destruct b; [intros H; by apply setApiRoute_id, H | done]. Qed.

(** X12. Expanding the REST shorthand a second time changes nothing: the
    slots are set from the shorthand as declared, not from what the first
    expansion stored, so no handler is wrapped twice. *)
Theorem compileRest_idempotent self :
  compileRestApiRoutesToApiRoutes (compileRestApiRoutesToApiRoutes self)
  = compileRestApiRoutesToApiRoutes self.
Proof.
  destruct (rest_slots self) as (H1 & H2 & H3 & H4 & H5 & H6).
  destruct (compileRest_keeps_rest self) as (Hrest & _).
  cbv zeta in *.
  set (expanded := compileRestApiRoutesToApiRoutes self) in *.
  unfold compileRestApiRoutesToApiRoutes at 1. rewrite Hrest.
  rewrite (when_id _ "get" "" _ expanded) by (intros Hb; by rewrite H1, Hb).
  rewrite (when_id _ "get" ":_id" _ expanded)
    by (intros Hb; by rewrite H3, Hb).
  rewrite (when_id _ "delete" ":_id" _ expanded)
    by (intros Hb; by rewrite H6, Hb).
  rewrite (when_id _ "patch" ":_id" _ expanded)
    by (intros Hb; by rewrite H5, Hb).
  rewrite (when_id _ "put" ":_id" _ expanded)
    by (intros Hb; by rewrite H4, Hb).
  by rewrite (when_id _ "post" "" _ expanded)
    by (intros Hb; by rewrite H2, Hb).
Qed.

(** *** The render wrapper *)

(** X8. When the wrapped handler resolves, the render wrapper sends the
    markup the template of the route renders from the result ([{}] for a
    falsy one) and leaves the status as it is; when the handler or the
    template throws, the wrapper does what [routeSendError] does with
    the error; for a request without a response object the template is
    not rendered and nothing is sent. *)
Theorem routeWrappers_renderRoutes_spec name fn req arg w w1 :
  (forall result markup,
     call fn req VUndefined w = (Ok result, w1) ->
     req_res req = true ->
     template_renderForModule apos req name
       (if truthy result then result else VObj []) = Ok markup ->
     routeWrappers_renderRoutes name fn req arg w
     = (Ok VUndefined, mkWorld (statusCode w1) (trace w1 ++ [ESend markup])))
  /\ (forall result e,
        call fn req VUndefined w = (Ok result, w1) ->
        req_res req = true ->
        template_renderForModule apos req name
          (if truthy result then result else VObj []) = Throw e ->
        routeWrappers_renderRoutes name fn req arg w
        = (result_bind (fst (routeSendError (Some req) e w1))
             (fun _ => Ok VUndefined),
           snd (routeSendError (Some req) e w1)))
  /\ (forall err,
        call fn req VUndefined w = (Throw err, w1) ->
        routeWrappers_renderRoutes name fn req arg w
        = (result_bind (fst (routeSendError (Some req) err w1))
             (fun _ => Ok VUndefined),
           snd (routeSendError (Some req) err w1)))
  /\ (forall result,
        call fn req VUndefined w = (Ok result, w1) ->
        req_res req = false ->
        routeWrappers_renderRoutes name fn req arg w
        = (Ok VUndefined, emit (EUtilError no_req_message) w1)).
Proof.
  repeat apply conj.
  - intros result markup Hcall Hres Hrender.
    unfold routeWrappers_renderRoutes, try_catch, bind, render.
    rewrite Hcall, Hres. unfold lift. rewrite Hrender. done.
  - intros result e Hcall Hres Hrender.
    unfold routeWrappers_renderRoutes, try_catch, bind, render.
    rewrite Hcall, Hres. unfold lift. rewrite Hrender. unfold ret.
    by destruct (routeSendError (Some req) e w1) as [[[]|e'] w2].
  - intros err Hcall.
    unfold routeWrappers_renderRoutes, try_catch, bind.
    rewrite Hcall. unfold ret.
    by destruct (routeSendError (Some req) err w1) as [[[]|e'] w2].
  - intros result Hcall Hres.
    unfold routeWrappers_renderRoutes, try_catch, bind, render.
    rewrite Hcall, Hres. unfold throw, routeSendError. rewrite Hres. done.
Qed.

(** *** More on cache control *)

Lemma header_value_set (k v : string) w :
  header_value k (res_header k v w) = Some v.
Proof.
  unfold header_value, res_header, emit. simpl. rewrite omap_app. simpl.
  rewrite String.eqb_refl. apply last_snoc.
Qed.


(** X15. [isSafeToCache] only reads: it leaves the response and the trace as
    they are.  It answers for a request with a user without looking at
    the response or the session; for any other it answers whenever the
    response object and the session are there, and throws when the
    status is not 400 or more and the session is [null] or
    [undefined]. *)
Theorem isSafeToCache_reads_only req w :
  snd (isSafeToCache req w) = w
  /\ (truthy (req_user req) = true -> isSafeToCache req w = (Ok false, w))
  /\ (req_res req = true -> nullish (req_session req) = false ->
      exists safe, isSafeToCache req w = (Ok safe, w))
  /\ (truthy (req_user req) = false -> req_res req = true ->
      at_least (statusCode w) 400 = false ->
      nullish (req_session req) = true ->
      isSafeToCache req w
      = (Throw (TypeError "Cannot convert undefined or null to object"), w)).
Proof.
  unfold isSafeToCache, the_res, bind, ret, throw. repeat apply conj.
  - destruct (truthy (req_user req)); [done|].
    destruct (req_res req); [|done]. simpl.
    by destruct (at_least (statusCode w) 400).
  - by intros ->.
  - intros -> Hs. destruct (truthy (req_user req)); [eauto|]. simpl.
    destruct (at_least (statusCode w) 400); [eauto|].
    destruct (req_session req); try done; simpl; eauto.
  - intros -> -> Hlt Hs. simpl. rewrite Hlt.
    by destruct (req_session req).
Qed.

(** X16. A client ETag made of the current release id and timestamp alone,
    with no third part, is a hit whatever [maxAge] is: the age is then
    not a number, which exceeds nothing. *)
Theorem checkETag_without_age req doc maxAge w releaseId timestamp h :
  req_res req = true ->
  generateETagParts req doc = Ok (Some [releaseId; timestamp]) ->
  isSafeToCache req w = (Ok true, w) ->
  assoc "if-none-match" (req_headers req) = Some h ->
  split ":" h = [releaseId; timestamp] ->
  checkETag req doc maxAge w = (Ok true, res_header "ETag" h w).
Proof.
  intros Hres Hgen Hsafe Hh Hsplit.
  assert (Hne : String.eqb h "" = false).
  { destruct h; [done|]. done. }
  unfold checkETag, bind at 1, lift. rewrite Hgen.
  unfold bind at 1. rewrite Hsafe. cbn [negb]. rewrite Hh, Hne, Hsplit.
  simpl. rewrite !String.eqb_refl. simpl.
  unfold setETag, the_res, bind, perform, ret. rewrite Hres.
  rewrite <- Hsplit, concat_split. done.
Qed.

(** *** Printing and reading a number *)

Lemma pretty_N_char_digit d :
  (d < 10)%N ->
  is_digit (pretty_N_char d) = true
  /\ Z.of_nat (Ascii.nat_of_ascii (pretty_N_char d)) - 48 = Z.of_N d.
Proof.
  intros Hd.
  assert (d = 0 \/ d = 1 \/ d = 2 \/ d = 3 \/ d = 4 \/ d = 5 \/ d = 6
          \/ d = 7 \/ d = 8 \/ d = 9)%N
    as [->|[->|[->|[->|[->|[->|[->|[->|[->| ->]]]]]]]]] by lia;
    by vm_compute.
Qed.

Lemma digits_value_pretty_go x :
  exists k, forall acc s,
    digits_value acc (pretty_N_go x s)
    = digits_value (acc * k + Z.of_N x) s.
Proof.
  induction (N.lt_wf_0 x) as [x _ IH].
  destruct (N.eq_dec x 0) as [->|Hx].
  - exists 1. intros acc s. rewrite pretty_N_go_0. f_equal. lia.
  - assert (0 < x)%N as Hpos by lia.
    destruct (IH (x `div` 10)%N) as [k Hk]; [by apply N.div_lt|].
    exists (10 * k). intros acc s.
    rewrite pretty_N_go_step by done. rewrite Hk. simpl.
    destruct (pretty_N_char_digit (x `mod` 10)) as [-> ->];
      [by apply N.mod_lt|].
    f_equal. rewrite (N.div_mod x 10) at 3 by done.
    rewrite N2Z.inj_add, N2Z.inj_mul. simpl Z.of_N. lia.
Qed.

(** A number that is not negative, printed in decimal, reads back as
    itself. *)
Lemma parse_decimal_pretty (n : Z) :
  0 <= n -> parse_decimal (pretty n) = Some n.
Proof.
  intros Hn. destruct n as [|p|p]; [done| |lia].
  unfold pretty, pretty_Z, pretty, pretty_positive, pretty, pretty_N.
  destruct (decide (N.pos p = 0%N)) as [|_]; [done|].
  destruct (digits_value_pretty_go (N.pos p)) as [k Hk].
  assert (Hd : digits_value 0 (pretty_N_go (N.pos p) "") = Some (Z.pos p)).
  { rewrite Hk. simpl. done. }
  unfold parse_decimal. destruct (pretty_N_go (N.pos p) ""); [done|].
  done.
Qed.

Lemma digits_colon_free acc s n :
  digits_value acc s = Some n -> colon_free s.
Proof.
  unfold colon_free. revert acc. induction s as [|c s IH]; intros acc; simpl.
  - intros _ [].
  - destruct (is_digit c) eqn:Hc; [|done].
    intros H [->|Hin]; [by vm_compute in Hc|]. by apply (IH _ H).
Qed.

Lemma pretty_colon_free (n : Z) : colon_free (pretty n).
Proof.
  destruct n as [|p|p].
  - unfold colon_free. simpl. intros [H|[]]. discriminate H.
  - pose proof (parse_decimal_pretty (Z.pos p) ltac:(lia)) as H.
    unfold parse_decimal in H.
    destruct (pretty (Z.pos p)) eqn:E; [done|].
    by apply digits_colon_free in H.
  - pose proof (parse_decimal_pretty (Z.pos p) ltac:(lia)) as H.
    unfold parse_decimal in H.
    change (pretty (Z.neg p)) with ("-" +:+ pretty (Z.pos p)).
    destruct (pretty (Z.pos p)) eqn:E; [done|].
    apply digits_colon_free in H. unfold colon_free in *. simpl.
    intros [Hd|Hin]; [discriminate Hd | by apply H].
Qed.

Lemma number_to_string_colon_free t : colon_free (number_to_string t).
Proof.
  destruct t as [z|]; [apply pretty_colon_free|].
  unfold colon_free. simpl. intros [H|[H|[H|[]]]]; discriminate H.
Qed.

Lemma split_colon_free s : colon_free s -> split ":" s = [s].
Proof.
  unfold colon_free. induction s as [|c s IH]; [done|]. simpl. intros H.
  destruct (Ascii.eqb_spec c ":") as [->|Hne]; [destruct H; by left|].
  rewrite IH; [done|]. intros Hin. apply H. by right.
Qed.

Lemma split_app_colon r rest :
  colon_free r -> split ":" (r +:+ String ":" rest) = r :: split ":" rest.
Proof.
  unfold colon_free. induction r as [|c r IH]; simpl; [done|]. intros H.
  destruct (Ascii.eqb_spec c ":") as [->|Hne]; [destruct H; by left|].
  rewrite IH; [done|]. intros Hin. apply H. by right.
Qed.

Lemma generateETagParts_shape req doc parts :
  generateETagParts req doc = Ok (Some parts) ->
  exists t, parts = [asset_getReleaseId apos; number_to_string t].
Proof.
  unfold generateETagParts.
  destruct (if truthy doc then _ else _) as [context|]; simpl; [|done].
  destruct (_ || _)%bool; [done|]. intros [= <-]. eauto.
Qed.

(** The ETag that [checkETag] sets on a miss at time [c] is read back
    part by part when a client returns it, so the hit rule applies to it
    as it stands: a hit up to [1000 * maxAge] milliseconds after [c], a
    miss with a fresh ETag after that. *)
Lemma checkETag_reads_own_etag req doc maxAge w releaseId timestamp c :
  req_res req = true ->
  generateETagParts req doc = Ok (Some [releaseId; timestamp]) ->
  isSafeToCache req w = (Ok true, w) ->
  colon_free releaseId -> 0 <= c ->
  assoc "if-none-match" (req_headers req)
  = Some (String.concat ":" ([releaseId; timestamp] ++ [pretty c])) ->
  checkETag req doc maxAge w
  = if Z.leb (Date_now apos - c) (1000 * maxAge)
    then (Ok true,
          res_header "ETag"
            (String.concat ":" ([releaseId; timestamp] ++ [pretty c])) w)
    else (Ok false,
          res_header "ETag"
            (String.concat ":"
               ([releaseId; timestamp] ++ [pretty (Date_now apos)])) w).
Proof.
  intros Hres Hgen Hsafe Hr Hc Hh.
  assert (Ht : colon_free timestamp).
  { destruct (generateETagParts_shape req doc _ Hgen) as [t [= _ ->]].
    apply number_to_string_colon_free. }
  set (h := String.concat ":" ([releaseId; timestamp] ++ [pretty c])) in *.
  assert (Hsplit : split ":" h = [releaseId; timestamp; pretty c]).
  { unfold h.
    change (String.concat ":" ([releaseId; timestamp] ++ [pretty c]))
      with (releaseId +:+ String ":" (timestamp +:+ String ":" (pretty c))).
    rewrite (split_app_colon releaseId) by done.
    rewrite (split_app_colon timestamp) by done.
    by rewrite (split_colon_free (pretty c)) by apply pretty_colon_free. }
  assert (Hne : String.eqb h "" = false).
  { destruct h eqn:E; [|done]. simpl in Hsplit. done. }
  unfold checkETag, bind at 1, lift. rewrite Hgen.
  unfold bind at 1. rewrite Hsafe. cbn [negb]. rewrite Hh, Hne, Hsplit.
  change ([releaseId; timestamp; pretty c] !! 0%nat) with (Some releaseId).
  change ([releaseId; timestamp; pretty c] !! 1%nat) with (Some timestamp).
  change ([releaseId; timestamp; pretty c] !! 2%nat) with (Some (pretty c)).
  change ([releaseId; timestamp] !! 0%nat) with (Some releaseId).
  change ([releaseId; timestamp] !! 1%nat) with (Some timestamp).
  unfold to_number. rewrite (parse_decimal_pretty c Hc), age_exceeds_decimal.
  unfold same_string. rewrite !String.eqb_refl. cbn [andb negb orb].
  unfold setETag, the_res, bind, perform, ret. rewrite Hres.
  by destruct (Z.leb (Date_now apos - c) (1000 * maxAge)).
Qed.

Lemma checkETag_first_visit req doc maxAge w parts :
  req_res req = true ->
  generateETagParts req doc = Ok (Some parts) ->
  isSafeToCache req w = (Ok true, w) ->
  assoc "if-none-match" (req_headers req) = None ->
  checkETag req doc maxAge w
  = (Ok false,
     res_header "ETag"
       (String.concat ":" (parts ++ [pretty (Date_now apos)])) w).
Proof.
  intros Hres Hgen Hsafe Hh.
  unfold checkETag, bind at 1, lift. rewrite Hgen.
  unfold bind at 1. rewrite Hsafe. cbn [negb]. rewrite Hh.
  change (same_string ([] !! 0%nat) (parts !! 0%nat)) with false.
  cbn [andb negb orb].
  unfold setETag, the_res, bind, perform, ret. by rewrite Hres.
Qed.

(** *** Compiled URLs *)

Lemma getRouteUrl_slash self name :
  starts_with_slash (action self) -> starts_with_slash (getRouteUrl self name).
Proof.
  intros [rest Hrest]. unfold getRouteUrl.
  destruct (String.eqb (substring 0 1 name) "/") eqn:Hname.
  - by apply starts_with_slash_eqb.
  - rewrite Hrest. destruct (has_url_char name); simpl; by eexists.
Qed.

Lemma sectionRoutes_slash self sec :
  starts_with_slash (action self) ->
  Forall (fun c => starts_with_slash (c_url c)) (sectionRoutes self sec).
Proof.
  intros Haction. apply List.Forall_forall. intros c Hc.
  unfold sectionRoutes in Hc. apply in_flat_map in Hc as ([m t] & _ & Hc).
  apply in_map_iff in Hc as ([n cfg] & <- & _). simpl.
  rewrite (proj2 (compileRoute_method_url self sec m n cfg)).
  by apply getRouteUrl_slash.
Qed.

(** X13. Once [enableAction] has set the action, every URL that route
    compilation adds to the table is site-relative: it starts with a
    slash, whatever the routes are called. *)
Theorem compileAllRoutes_urls_site_relative self :
  Forall (fun c => starts_with_slash (c_url c)) (_routes self) ->
  Forall (fun c => starts_with_slash (c_url c))
    (_routes (compileAllRoutes (enableAction self))).
Proof.
  intros Hbefore.
  assert (Haction : starts_with_slash
                      (action (compileRestApiRoutesToApiRoutes
                                 (enableAction self)))).
  { rewrite (proj1 (compileRest_keeps (enableAction self))). simpl.
    by eexists. }
  assert (Htable : _routes (compileRestApiRoutesToApiRoutes
                              (enableAction self)) = _routes self).
  { destruct (compileRest_keeps (enableAction self)) as (_ & _ & _ & ->).
    done. }
  unfold compileAllRoutes, compileSectionRoutes. cbn [_routes].
  rewrite Htable. repeat apply Forall_app_2; try done;
    by apply sectionRoutes_slash.
Qed.

End Module.

(** ** Asset URLs *)

Lemma chain_search_first site name ext before entry after :
  Forall (fun e => fs_existsSync site
                     (entry_dirname e +:+ "/public/" +:+ name +:+ "."
                      +:+ ext) = false) before ->
  fs_existsSync site
    (entry_dirname entry +:+ "/public/" +:+ name +:+ "." +:+ ext) = true ->
  chain_search site name ext (before ++ entry :: after)
  = Some ("/modules/" +:+ entry_name entry +:+ "/" +:+ name +:+ "." +:+ ext).
Proof.
  intros Hbefore Hentry. induction Hbefore as [|e l He _ IH]; simpl.
  - by rewrite Hentry.
  - by rewrite He.
Qed.

Lemma chain_search_none site name ext chain :
  Forall (fun e => fs_existsSync site
                     (entry_dirname e +:+ "/public/" +:+ name +:+ "."
                      +:+ ext) = false) chain ->
  chain_search site name ext chain = None.
Proof.
  intros H. induction H as [|e l He _ IH]; simpl; [done|]. by rewrite He.
Qed.

Lemma modules_prefix (rest : string) :
  String.prefix "/modules" ("/modules/" +:+ rest) = true.
Proof. reflexivity. Qed.

(** X18. An explicit [<name>Url] option wins over everything else: it is left
    as it is unless it starts with [/modules], in which case it goes
    through [asset.url] (whether or not an image option is set); with
    neither option set nothing is written; and a truthy URL that is not a
    string makes the method throw. *)
Theorem determineBestAssetUrl_explicit site self chain options name :
  (forall u,
     assoc (name +:+ "Url") options = Some (VStr u) -> u <> "" ->
     determineBestAssetUrl site self chain options name
     = Ok (if String.prefix "/modules" u
           then if String.eqb (asset_url site u) "" then options
                else assoc_set (name +:+ "Url") (VStr (asset_url site u))
                       options
           else options))
  /\ (truthy (default VUndefined (assoc (name +:+ "Url") options)) = false ->
      truthy (default VUndefined (assoc (name +:+ "Image") options)) = false ->
      determineBestAssetUrl site self chain options name = Ok options)
  /\ (forall v,
        assoc (name +:+ "Url") options = Some v -> truthy v = true ->
        (forall u, v <> VStr u) ->
        exists e, determineBestAssetUrl site self chain options name
                  = Throw e).
Proof.
  repeat apply conj.
  - intros u Hu Hne. unfold determineBestAssetUrl. rewrite Hu. simpl.
    apply String.eqb_neq in Hne. rewrite Hne. simpl. rewrite Hne. simpl.
    destruct (String.prefix "/modules" u); simpl.
    + by destruct (String.eqb (asset_url site u) "").
    + rewrite Hne. simpl. by rewrite (assoc_set_id _ _ _ Hu).
  - intros Hu Hi. unfold determineBestAssetUrl. rewrite Hu, Hi. simpl.
    rewrite Hu. simpl. by rewrite Hu.
  - intros v Hv Ht Hns. unfold determineBestAssetUrl. rewrite Hv. simpl.
    rewrite Ht, Ht. destruct v; try by eauto. by destruct (Hns s).
Qed.

(** X19. Without a [<name>Url] option and with a [<name>Image] extension, the
    legacy pipeline takes the file of the last entry of the inheritance
    chain that has one, so a project-level override beats the module it
    extends, and sets no URL when no entry has the file; with a build
    module the URL is that of the module itself, whether or not any file
    exists.  The URL set is always the one [asset.url] returns. *)
Theorem determineBestAssetUrl_chain site self chain options name image :
  truthy (default VUndefined (assoc (name +:+ "Url") options)) = false ->
  assoc (name +:+ "Image") options = Some image ->
  truthy image = true ->
  let missing e :=
    fs_existsSync site
      (entry_dirname e +:+ "/public/" +:+ name +:+ "."
       +:+ to_string image) = false in
  let written url :=
    if String.eqb (asset_url site url) "" then options
    else assoc_set (name +:+ "Url") (VStr (asset_url site url)) options in
  (asset_hasBuildModule site = false ->
   forall before entry after,
     chain = before ++ entry :: after ->
     ~ missing entry -> Forall missing after ->
     determineBestAssetUrl site self chain options name
     = Ok (written ("/modules/" +:+ entry_name entry +:+ "/" +:+ name
                    +:+ "." +:+ to_string image)))
  /\ (asset_hasBuildModule site = false -> Forall missing chain ->
      determineBestAssetUrl site self chain options name = Ok options)
  /\ (asset_hasBuildModule site = true ->
      determineBestAssetUrl site self chain options name
      = Ok (written ("/modules/" +:+ meta_name self +:+ "/" +:+ name
                     +:+ "." +:+ to_string image))).
Proof.
  intros Hu Hi Ht missing written. repeat apply conj.
  - intros Hb before entry after -> Hentry Hafter.
    apply not_false_is_true in Hentry.
    unfold determineBestAssetUrl. rewrite Hu, Hi, Hb. simpl. rewrite Ht.
    simpl. rewrite rev_app_distr. simpl. rewrite <- app_assoc. simpl.
    rewrite (chain_search_first site name (to_string image) (rev after)
               entry (rev before));
      [|by apply Forall_rev|done].
    cbn [truthy]. rewrite modules_prefix.
    change (String.eqb _ "") with
      (String.eqb ("/modules/" +:+ entry_name entry +:+ "/" +:+ name
                   +:+ "." +:+ to_string image) "").
    change (negb (String.eqb ("/modules/" +:+ entry_name entry +:+ "/"
                              +:+ name +:+ "." +:+ to_string image) ""))
      with true.
    cbn iota. unfold written. simpl.
    by destruct (String.eqb (asset_url site _) "").
  - intros Hb Hall. unfold determineBestAssetUrl. rewrite Hu, Hi, Hb. simpl.
    rewrite Ht. simpl.
    rewrite (chain_search_none site name (to_string image) (rev chain))
      by (by apply Forall_rev).
    rewrite Hu. simpl. by rewrite Hu.
  - intros Hb. unfold determineBestAssetUrl. rewrite Hu, Hi, Hb. simpl.
    rewrite Ht. simpl.
    unfold written. simpl.
    by destruct (String.eqb (asset_url site _) "").
Qed.

(** ** Inheritance chains *)

Lemma chains_from_other full i rest chains name :
  Forall (fun e => entry_name e <> name) rest ->
  chains_from full i rest chains !! name = chains !! name.
Proof.
  intros H. revert i chains.
  induction H as [|e rest He _ IH]; intros i chains; simpl; [done|].
  rewrite IH. by apply lookup_insert_ne.
Qed.

Lemma chains_from_last full i before e after chains :
  Forall (fun e' => entry_name e' <> entry_name e) after ->
  chains_from full i (before ++ e :: after) chains !! entry_name e
  = Some (take (S (i + List.length before)) full).
Proof.
  intros Hafter. revert i chains.
  induction before as [|b before IH]; intros i chains; simpl.
  - rewrite chains_from_other by done. rewrite Nat.add_0_r.
    apply lookup_insert_eq.
  - rewrite IH. do 3 f_equal. lia.
Qed.

(** X20. [init] files under the name of every entry of the inheritance chain
    the chain up to and including that entry (the last one of that name,
    should a name occur twice), so the module's own name gets the whole
    chain; what other modules have filed under other names stays. *)
Theorem init_chains_spec chain chains :
  (forall before e after,
     chain = before ++ e :: after ->
     Forall (fun e' => entry_name e' <> entry_name e) after ->
     init_chains chain chains !! entry_name e = Some (before ++ [e]))
  /\ (forall before e,
        chain = before ++ [e] ->
        init_chains chain chains !! entry_name e = Some chain)
  /\ (forall name,
        Forall (fun e => entry_name e <> name) chain ->
        init_chains chain chains !! name = default ∅ chains !! name).
Proof.
  assert (Hfirst : forall before e after,
            chain = before ++ e :: after ->
            Forall (fun e' => entry_name e' <> entry_name e) after ->
            init_chains chain chains !! entry_name e = Some (before ++ [e])).
  { intros before e after -> Hafter. unfold init_chains.
    rewrite chains_from_last by done. f_equal. simpl.
    replace (S (List.length before)) with (List.length (before ++ [e]))
      by (rewrite length_app; simpl; lia).
    rewrite (cons_middle e before after), app_assoc.
    by rewrite take_app_length. }
  repeat apply conj.
  - exact Hfirst.
  - intros before e Hchain.
    rewrite (Hfirst before e [] Hchain (Forall_nil_2 _)). by rewrite Hchain.
  - intros name Hname. unfold init_chains. by apply chains_from_other.
Qed.

(** ** Across two requests *)

(** X17. A first visit at time [c], without [If-None-Match], is a miss that
    sets an ETag; a client that returns this very ETag at time [now] gets
    a hit, and the same ETag again, as long as [now - c] is at most
    [1000 * maxAge] milliseconds, and a miss with an ETag stamped [now]
    after that. *)
Theorem checkETag_round_trip (apos : Apos) req1 req2 doc maxAge w1 w2 c now
    releaseId timestamp :
  0 <= c ->
  colon_free releaseId ->
  req_res req1 = true -> req_res req2 = true ->
  generateETagParts apos req1 doc = Ok (Some [releaseId; timestamp]) ->
  generateETagParts apos req2 doc = Ok (Some [releaseId; timestamp]) ->
  isSafeToCache apos req1 w1 = (Ok true, w1) ->
  isSafeToCache apos req2 w2 = (Ok true, w2) ->
  assoc "if-none-match" (req_headers req1) = None ->
  assoc "if-none-match" (req_headers req2)
  = header_value "ETag" (snd (checkETag (at_time apos c) req1 doc maxAge w1)) ->
  fst (checkETag (at_time apos c) req1 doc maxAge w1) = Ok false
  /\ checkETag (at_time apos now) req2 doc maxAge w2
     = (Ok (Z.leb (now - c) (1000 * maxAge)),
        res_header "ETag"
          (String.concat ":"
             [releaseId; timestamp;
              pretty (if Z.leb (now - c) (1000 * maxAge) then c else now)])
          w2).
Proof.
  intros Hc Hr Hres1 Hres2 Hgen1 Hgen2 Hsafe1 Hsafe2 Hnone Hh.
  rewrite (checkETag_first_visit (at_time apos c) req1 doc maxAge w1
             [releaseId; timestamp] Hres1 Hgen1 Hsafe1 Hnone) in Hh |- *.
  split; [done|].
  cbn [snd] in Hh. rewrite header_value_set in Hh.
  rewrite (checkETag_reads_own_etag (at_time apos now) req2 doc maxAge w2
             releaseId timestamp c Hres2 Hgen2 Hsafe2 Hr Hc Hh).
  change (Date_now (at_time apos now)) with now.
  by destruct (Z.leb (now - c) (1000 * maxAge)).
Qed.

(** ** The properties at the sample data *)

Lemma routeSendError_unknown_witness :
  exists w',
    routeSendError sample_apos (Some sample_req) boom world0 = (Ok tt, w')
    /\ statusCode w' = VNum 500
    /\ sent w' = sent world0 ++ [VObj [("name", VStr "error");
                                       ("data", VObj []);
                                       ("message",
                                        VStr "An error occurred.")]]
    /\ last (trace w') = Some (ESend (VObj [("name", VStr "error");
                                            ("data", VObj []);
                                            ("message",
                                             VStr "An error occurred.")])).
Proof.
  apply (routeSendError_unknown sample_apos sample_req boom world0);
    [intros key msg fields e H; discriminate H | reflexivity..].
Defined.

Lemma routeSendError_inherited_name_witness :
  exists w',
    routeSendError sample_apos (Some sample_req) inherited_name_err world0
    = (Ok tt, w')
    /\ statusCode w' = VNative "Object"
    /\ sent w' = [VObj [("name", VStr "constructor");
                        ("data", VObj []);
                        ("message", VStr "secret")]].
Proof.
  destruct (routeSendError_inherited_name sample_apos sample_req
              inherited_name_err "constructor" world0)
    as (w' & Hsend & Hstatus & Hsent & _);
    [intros key msg fields e H; discriminate H | reflexivity..|].
  exists w'. split; [exact Hsend|]. split; [exact Hstatus | exact Hsent].
Defined.

(** C2, as stated, fails: the taxonomy maps [invalid], so the member of
    the array is a known error, yet the entry that answers it does not
    hold the data the error came with: its sub-error has been replaced by
    the generic one. *)
Lemma routeSendError_array_rewrites_data :
  known_code sample_apos nested_invalid = Some (VNum 400)
  /\ exists body entry,
       sent (snd (routeSendError sample_apos (Some sample_req)
                    (VArr [nested_invalid]) world0)) = [body]
       /\ items_of (prop (prop body "data") "errors") !! 0%nat = Some entry
       /\ prop entry "data" <> prop nested_invalid "data".
Proof.
  split; [reflexivity|].
  exists (VObj [("name", VStr "invalid");
                ("data",
                 VObj [("errors",
                        VArr [VObj [("name", VStr "invalid");
                                    ("code", VNum 400);
                                    ("message", VStr "bad");
                                    ("data",
                                     VObj [("errors",
                                            VArr [VObj [("name", VStr "error");
                                                        ("code", VNum 500);
                                                        ("message",
                                                         VStr "An error occurred.");
                                                        ("data", VObj []);
                                                        ("path", VUndefined)]])]);
                                    ("path", VUndefined)]])]);
                ("message", VStr "invalid")]).
  eexists. split; [vm_compute; reflexivity|]. split; [reflexivity|].
  vm_compute. discriminate.
Qed.

Lemma routeSendError_array_witness :
  exists rs,
    mapM (getResponse sample_apos) [required_err; boom] = Ok rs
    /\ List.length (map sub_entry rs) = 2%nat
    /\ sent (snd (routeSendError sample_apos (Some sample_req)
                    (VArr [required_err; boom]) world0))
       = [VObj [("name", VStr "invalid");
                ("data", VObj [("errors", VArr (map sub_entry rs))]);
                ("message", VStr "invalid")]].
Proof.
  assert (Hwf : Forall well_formed [required_err; boom]).
  { apply List.Forall_cons; [|apply List.Forall_cons; [|apply List.Forall_nil]];
      (apply well_formed_intro; [reflexivity | intros x []]). }
  destruct (routeSendError_array sample_apos sample_req [required_err; boom]
              world0 400
              ltac:(intros key msg fields e H; discriminate H)
              eq_refl eq_refl ltac:(lia) eq_refl Hwf)
    as (rs & evs & Hrs & Hsend & Hevs & Hlen & _).
  exists rs. split; [exact Hrs|]. split; [exact Hlen|].
  rewrite Hsend. cbn [snd]. by rewrite sent_after_log.
Defined.

Lemma compileAllRoutes_order_witness :
  exists a,
    In a (sectionRoutes sample_apos
            (compileRestApiRoutesToApiRoutes sample_module) "apiRoutes")
    /\ c_method a = "get"
    /\ c_url a = "/api/v1/test/:_id".
Proof.
  destruct (compileAllRoutes_order sample_apos sample_module)
    as (_ & _ & _ & H).
  apply (H "get" (RFun echo_id)); [simpl; auto | reflexivity].
Defined.

Lemma getRouteUrl_cases_witness :
  getRouteUrl sample_apos sample_module "/custom" = "/custom"
  /\ getRouteUrl sample_apos sample_module "foo/:id" = "/api/v1/test/foo/:id"
  /\ getRouteUrl sample_apos
       (enableAction (mkModule "test" "" [] [] []
                        (mkRestApi RUndef RUndef RUndef RUndef RUndef RUndef)
                        []))
       "saveArea"
     = "/api/v1/test/save-area".
Proof.
  split; [|split].
  - apply (proj1 (getRouteUrl_cases sample_apos sample_module "/custom")).
    by exists "custom".
  - apply (proj1 (proj2 (getRouteUrl_cases sample_apos sample_module
                           "foo/:id"))).
    + intros [rest Hrest]. discriminate Hrest.
    + unfold holds_url_char. exists "/"%char. simpl. tauto.
  - apply (proj2 (proj2 (proj2 (getRouteUrl_cases sample_apos sample_module
                                  "saveArea")))).
    reflexivity.
Defined.

Lemma routeWrappers_apiRoutes_witness :
  routeWrappers_apiRoutes sample_apos "search" (RFun list_docs) sample_req
    VUndefined world0
  = (Ok VUndefined,
     mkWorld (VNum 200)
       [EHeader "Cache-Control" "no-store"; EStatus (VNum 200);
        ESend (VArr [VStr "doc"])]).
Proof.
  exact (proj1 (routeWrappers_apiRoutes_spec sample_apos "search"
                  (RFun list_docs) sample_req VUndefined world0 world0)
           (VArr [VStr "doc"]) eq_refl).
Defined.

Lemma isSafeToCache_witness :
  isSafeToCache sample_apos anon_req world0 = (Ok true, world0)
  /\ isSafeToCache sample_apos sample_req world0 = (Ok false, world0).
Proof.
  split.
  - destruct (isSafeToCache_spec sample_apos
                (mkRequest "GET" VUndefined (VObj [])
                   (VObj [("cookie", VObj [("maxAge", VNum 86400)])])
                   [("if-none-match", "r1:100:5000")]
                   (VObj [("page", VObj [("cacheInvalidatedAt", VNum 100)])])
                   true)
                world0 eq_refl) as (_ & _ & _ & _ & H).
    apply (H eq_refl eq_refl (VObj [("maxAge", VNum 86400)]) eq_refl).
  - destruct (isSafeToCache_spec sample_apos sample_req world0 eq_refl)
      as (H & _).
    apply H. reflexivity.
Defined.

(** C9, as stated, fails: 5000 ms after the client stored the response
    and with a [maxAge] of 10 seconds, [checkETag] reports a hit and
    returns the client its own ETag, although [now - clientSetAt], which
    is 5000, is not at most [maxAge]. *)
Lemma checkETag_age_is_in_seconds :
  checkETag sample_apos anon_req VUndefined 10 world0
  = (Ok true, res_header "ETag" "r1:100:5000" world0)
  /\ hit_as_specified true (Date_now sample_apos) 5000 10 = false.
Proof. split; reflexivity. Qed.

Lemma checkETag_witness :
  exists hit : bool,
    checkETag sample_apos anon_req VUndefined 10 world0
    = (Ok hit,
       if hit then res_header "ETag" "r1:100:5000" world0
       else res_header "ETag" "r1:100:10000" world0)
    /\ (hit = true <->
        split ":" "r1:100:5000" !! 0%nat = Some "r1"
        /\ split ":" "r1:100:5000" !! 1%nat = Some "100"
        /\ 10000 - 5000 <= 1000 * 10).
Proof.
  destruct (checkETag_spec sample_apos anon_req VUndefined 10 world0 eq_refl)
    as (_ & _ & H).
  destruct (H "r1" "100" eq_refl eq_refl) as [H' _].
  apply (H' "r1:100:5000" "5000" 5000 eq_refl ltac:(discriminate)
           eq_refl eq_refl).
Defined.

Lemma generateETagParts_witness :
  generateETagParts sample_apos anon_req VUndefined = Ok (Some ["r1"; "100"])
  /\ generateETagParts sample_apos sample_req VUndefined = Ok None.
Proof.
  split.
  - destruct (generateETagParts_spec sample_apos anon_req VUndefined
                (or_intror eq_refl)) as (_ & _ & _ & H & _).
    apply H; reflexivity.
  - destruct (generateETagParts_spec sample_apos sample_req VUndefined
                (or_intror eq_refl)) as (_ & _ & H & _).
    apply H. by left.
Defined.

Lemma routeSendError_known_witness :
  exists w',
    routeSendError sample_apos (Some sample_req) required_err world0
    = (Ok tt, w')
    /\ statusCode w' = VNum 400
    /\ sent w' = sent world0 ++ [VObj [("name", VStr "required");
                                       ("data",
                                        js_or (prop required_err "data")
                                          (VObj []));
                                       ("message",
                                        prop required_err "message")]].
Proof.
  apply (routeSendError_known sample_apos sample_req required_err "required"
           400 world0);
    [intros key msg fields e H; discriminate H | ..];
    try reflexivity; try discriminate.
  left. discriminate.
Defined.

Lemma routeSendError_answers_witness :
  exists response evs,
    getResponse sample_apos boom = Ok response
    /\ routeSendError failing_log_apos (Some sample_req) boom world0
       = (Ok tt,
          mkWorld (resp_code response)
            (trace world0 ++ evs ++
             [EStatus (resp_code response);
              ESend (VObj [("name", resp_name response);
                           ("data", resp_data response);
                           ("message", resp_message response)])]))
    /\ Forall is_log_event evs.
Proof.
  destruct (routeSendError_answers failing_log_apos sample_req boom world0)
    as (response & Hresp & Hsend & _);
    [reflexivity | | reflexivity |].
  { apply well_formed_intro; [reflexivity | intros x []]. }
  destruct Hsend as (evs & Hsend & Hevs).
  { intros key msg fields e H. injection H as <-. reflexivity. }
  exists response, evs. split; [exact Hresp|]. split; [exact Hsend|exact Hevs].
Defined.

Lemma routeSendError_logs_first_witness :
  routeSendError sample_apos (Some sample_req) boom world0
  = (Ok tt,
     mkWorld (VNum 500)
       [ELogError "api-error" (VStr "secret")
          (VObj [("name", VStr "error");
                 ("status", VNum 500);
                 ("stack", VArr [VStr "at f (x.js:1:1)"]);
                 ("cause", VUndefined);
                 ("errorPath", VUndefined);
                 ("data", VObj [])]);
        EStatus (VNum 500);
        ESend (VObj [("name", VStr "error");
                     ("data", VObj []);
                     ("message", VStr "An error occurred.")])])
  /\ routeSendError undefined_log_apos (Some sample_req) boom world0
     = (Throw (TypeError "Cannot read properties of undefined"),
        mkWorld (VNum 200)
          [ELogError "api-error" (VStr "secret")
             (VObj [("name", VStr "error");
                    ("status", VNum 500);
                    ("stack", VArr [VStr "at f (x.js:1:1)"]);
                    ("cause", VUndefined);
                    ("errorPath", VUndefined);
                    ("data", VObj [])])]).
Proof.
  split.
  - destruct (routeSendError_logs_first sample_apos sample_req boom
                (mkResponse (VStr "error") (VObj []) (VNum 500) VUndefined
                   util_error (VStr "An error occurred."))
                world0
                ("boom: secret" +:+ String "010" "    at f (x.js:1:1)")
                eq_refl eq_refl eq_refl eq_refl)
      as (key & Hkey & _ & Hsend).
    rewrite (Hkey eq_refl) in Hsend. exact Hsend.
  - destruct (routeSendError_logs_first undefined_log_apos sample_req boom
                (mkResponse (VStr "error") (VObj []) (VNum 500) VUndefined
                   util_error (VStr "An error occurred."))
                world0
                ("boom: secret" +:+ String "010" "    at f (x.js:1:1)")
                eq_refl eq_refl eq_refl eq_refl)
      as (key & Hkey & _ & Hsend).
    rewrite (Hkey eq_refl) in Hsend. exact Hsend.
Defined.

Lemma routeSendError_log_fallback_witness :
  routeSendError failing_log_apos (Some sample_req) boom world0
  = (Ok tt,
     mkWorld (VNum 500)
       [ELogError "api-error" (VStr "secret")
          (VObj [("name", VStr "error");
                 ("status", VNum 500);
                 ("stack", VArr [VStr "at f (x.js:1:1)"]);
                 ("cause", VUndefined);
                 ("errorPath", VUndefined);
                 ("data", VObj [])]);
        EConsoleError
          (VObj [("message", VStr "Structured logging error: disk full")]);
        EStatus (VNum 500);
        ESend (VObj [("name", VStr "error"); ("data", VObj []);
                     ("message", VStr "An error occurred.")])])
  /\ routeSendError sample_apos (Some sample_req) odd_stack world0
     = (Ok tt,
        mkWorld (VNum 500)
          [EConsoleError
             (VObj [("name", VStr "TypeError");
                    ("message",
                     VStr "Structured logging error: split is not a function")]);
           EStatus (VNum 500);
           ESend (VObj [("name", VStr "error"); ("data", VObj []);
                        ("message", VStr "An error occurred.")])]).
Proof.
  split.
  - exact (proj1 (routeSendError_log_fallback failing_log_apos sample_req boom
                    (mkResponse (VStr "error") (VObj []) (VNum 500) VUndefined
                       util_error (VStr "An error occurred."))
                    world0 eq_refl eq_refl eq_refl)
             (VArr [VStr "at f (x.js:1:1)"]) "api-error" (VStr "secret") _
             (VObj [("message", VStr "disk full")])
             eq_refl eq_refl eq_refl eq_refl eq_refl).
  - apply (proj2 (proj2 (proj2
             (routeSendError_log_fallback sample_apos sample_req odd_stack
                (mkResponse (VStr "error") (VObj []) (VNum 500) VUndefined
                   util_error (VStr "An error occurred."))
                world0 eq_refl eq_refl eq_refl)))); [reflexivity|].
    intros s. discriminate.
Defined.

Lemma getResponse_normalised_witness :
  exists r,
    getResponse sample_apos nested_invalid = Ok r
    /\ normalised sample_apos (sub_entry r).
Proof.
  destruct (getResponse sample_apos nested_invalid) as [r|e] eqn:E.
  - exists r. split; [reflexivity|].
    apply (getResponse_normalised sample_apos nested_invalid r E).
  - vm_compute in E. discriminate E.
Defined.

Lemma getResponse_entry_fixed_witness :
  getResponse sample_apos
    (sub_entry (mkResponse (VStr "error") (VObj []) (VNum 500) VUndefined
                  util_error (VStr "An error occurred.")))
  = Ok (mkResponse (VStr "error") (VObj []) (VNum 500) VUndefined util_error
          (VStr "An error occurred."))
  /\ getResponse sample_apos
       (array_entry boom
          (mkResponse (VStr "error") (VObj []) (VNum 500) VUndefined
             util_error (VStr "An error occurred.")))
     = Ok (mkResponse (VStr "error") (VObj []) (VNum 500) VUndefined
             util_error (VStr "An error occurred.")).
Proof.
  apply (getResponse_entry_fixed sample_apos boom); reflexivity.
Defined.

Lemma routeWrappers_apiRoutes_unknown_error_witness :
  exists w',
    routeWrappers_apiRoutes sample_apos "search" (RFun fail_boom) sample_req
      VUndefined world0 = (Ok VUndefined, w')
    /\ statusCode w' = VNum 500
    /\ sent w' = sent world0 ++ [VObj [("name", VStr "error");
                                       ("data", VObj []);
                                       ("message",
                                        VStr "An error occurred.")]]
    /\ (forall k v, In (EHeader k v) (trace w') ->
                    In (EHeader k v) (trace world0)).
Proof.
  apply (routeWrappers_apiRoutes_unknown_error sample_apos "search"
           (RFun fail_boom) sample_req VUndefined world0 world0 boom);
    [intros key msg fields e H; discriminate H | reflexivity..].
Defined.


Lemma compileRoute_keeps_middleware_witness :
  exists chain,
    c_route (compileRoute sample_apos sample_module "apiRoutes" "get" "search"
               (CRoute (RArr [RFun echo_id; RFun list_docs])))
    = HChain chain
    /\ List.length chain = 2%nat
    /\ chain !! 0%nat = Some (RFun echo_id).
Proof.
  destruct (compileRoute_keeps_middleware sample_apos sample_module
              "apiRoutes" "get" "search"
              (CRoute (RArr [RFun echo_id; RFun list_docs]))
              [RFun echo_id; RFun list_docs] (or_introl eq_refl))
    as (chain & Hc & Hlen & Hmw & _).
  exists chain. split; [exact Hc|]. split; [exact Hlen|].
  apply (Hmw 0%nat). simpl. lia.
Defined.

Lemma compileRest_leaves_the_rest_witness :
  apiRoute (compileRestApiRoutesToApiRoutes sample_module) "get" "search"
  = apiRoute sample_module "get" "search".
Proof.
  apply (proj2 (proj2 (proj2 (proj2 (proj2
           (compileRest_leaves_the_rest sample_module))))) "get" "search").
  intros [H|[H|[H|[H|[H|[H|[]]]]]]]; discriminate H.
Defined.

Lemma routeWrappers_renderRoutes_witness :
  routeWrappers_renderRoutes sample_apos "page" (RFun list_docs) sample_req
    VUndefined world0
  = (Ok VUndefined, mkWorld (VNum 200) [ESend (VStr "<p>page</p>")]).
Proof.
  apply (proj1 (routeWrappers_renderRoutes_spec sample_apos "page"
                  (RFun list_docs) sample_req VUndefined world0 world0)
           (VArr [VStr "doc"]) (VStr "<p>page</p>"));
    reflexivity.
Defined.


Lemma isSafeToCache_reads_only_witness :
  isSafeToCache sample_apos no_session_req world0
  = (Throw (TypeError "Cannot convert undefined or null to object"), world0).
Proof.
  apply (proj2 (proj2 (proj2 (isSafeToCache_reads_only sample_apos
                                no_session_req world0))));
    reflexivity.
Defined.

Lemma checkETag_without_age_witness :
  checkETag sample_apos two_part_req VUndefined 0 world0
  = (Ok true, res_header "ETag" "r1:100" world0).
Proof.
  apply (checkETag_without_age sample_apos two_part_req VUndefined 0 world0
           "r1" "100" "r1:100");
    reflexivity.
Defined.

Lemma checkETag_round_trip_witness :
  fst (checkETag (at_time sample_apos 5000) first_req VUndefined 10 world0)
  = Ok false
  /\ checkETag (at_time sample_apos 10000) anon_req VUndefined 10 world0
     = (Ok true, res_header "ETag" "r1:100:5000" world0).
Proof.
  apply (checkETag_round_trip sample_apos first_req anon_req VUndefined 10
           world0 world0 5000 10000 "r1" "100");
    try reflexivity; [lia|].
  intros [H|[H|[]]]; discriminate H.
Defined.

Lemma determineBestAssetUrl_explicit_witness :
  determineBestAssetUrl sample_site sample_module [core_entry; project_entry]
    [("logoUrl", VStr "/modules/test/logo.png")] "logo"
  = Ok [("logoUrl",
         VStr "/apos-frontend/releases/r1/default/modules/test/logo.png")]
  /\ determineBestAssetUrl sample_site sample_module
       [core_entry; project_entry]
       [("logoUrl", VStr "https://cdn.example/logo.png")] "logo"
     = Ok [("logoUrl", VStr "https://cdn.example/logo.png")].
Proof.
  split.
  - apply (proj1 (determineBestAssetUrl_explicit sample_site sample_module
                    [core_entry; project_entry]
                    [("logoUrl", VStr "/modules/test/logo.png")] "logo")
             "/modules/test/logo.png" eq_refl).
    discriminate.
  - apply (proj1 (determineBestAssetUrl_explicit sample_site sample_module
                    [core_entry; project_entry]
                    [("logoUrl", VStr "https://cdn.example/logo.png")] "logo")
             "https://cdn.example/logo.png" eq_refl).
    discriminate.
Defined.

Lemma determineBestAssetUrl_chain_witness :
  determineBestAssetUrl sample_site sample_module [core_entry; project_entry]
    [("placeholderImage", VStr "jpg")] "placeholder"
  = Ok [("placeholderImage", VStr "jpg");
        ("placeholderUrl",
         VStr "/apos-frontend/releases/r1/default/modules/my-test/placeholder.jpg")].
Proof.
  pose proof (determineBestAssetUrl_chain sample_site sample_module
                [core_entry; project_entry]
                [("placeholderImage", VStr "jpg")] "placeholder" (VStr "jpg")
                eq_refl eq_refl eq_refl) as H.
  cbv zeta in H. destruct H as (H & _).
  apply (H eq_refl [core_entry] project_entry [] eq_refl).
  - intros Hm. vm_compute in Hm. discriminate Hm.
  - apply List.Forall_nil.
Defined.

Lemma compileAllRoutes_urls_site_relative_witness :
  Forall (fun c => starts_with_slash (c_url c))
    (_routes (compileAllRoutes sample_apos (enableAction sample_module))).
Proof.
  apply (compileAllRoutes_urls_site_relative sample_apos sample_module).
  apply List.Forall_nil.
Defined.


Lemma init_chains_witness :
  init_chains [core_entry; project_entry] None !! "test" = Some [core_entry]
  /\ init_chains [core_entry; project_entry] None !! "my-test"
     = Some [core_entry; project_entry].
Proof.
  destruct (init_chains_spec [core_entry; project_entry] None)
    as (Hfirst & Hlast & _).
  split.
  - apply (Hfirst [] core_entry [project_entry] eq_refl).
    apply List.Forall_cons; [discriminate | apply List.Forall_nil].
  - apply (Hlast [core_entry] project_entry eq_refl).
Defined.
